(** * Streamed-conversation playback engine of the Interview component

    A shallow embedding of the client-side core of the pre-visit intake
    demo (the [Interview] React component): the stream ingestor
    ([eventSource.onmessage]), the playback sequencer ([processQueue]),
    the report revision tracker (the report update effect) and the visual
    diff ([getDiffReport]).

    The component is single-threaded and event-driven.  Every handler of
    the source is a function on an explicit [State]; the browser objects
    the handlers act on (event sources, audio elements, timers) are part
    of that state, so that aliasing through the refs
    ([eventSourceRef], [currentPlayingAudio], [timeoutIdRef]) is kept. *)

From Stdlib Require Import ZArith Lia Bool Ascii String.
From stdpp Require Import base option list strings.

Local Open Scope string_scope.

(** ** Data model *)

(** A conversation event as it comes out of [JSON.parse]: [speaker] and
    [text] are strings, [audio] is an optional URL or data URI. *)
Record ConversationEvent := mkEvent {
  speaker : string;
  text : string;
  audio : option string
}.

(** JavaScript truthiness of [nextMessage.audio]: a missing field and the
    empty string are falsy. *)
Definition audio_truthy (e : ConversationEvent) : bool :=
  match audio e with
  | Some url => negb (String.eqb url "")
  | None => false
  end.

(** The text frames of the push channel, seen through the [try] block of
    [onmessage]: [JSON.parse] throws, or yields the end signal
    ([data.event === 'end']), or yields a conversation event. *)
Inductive Frame :=
| Unparsable
| EndSignal
| Payload (e : ConversationEvent).

(** [EventSource.readyState]. *)
Inductive ReadyState := CONNECTING | OPEN | CLOSED.

#[global] Instance ReadyState_eq_dec : EqDecision ReadyState.
Proof. solve_decision. Defined.

(** An [Audio] element: its [src] and whether it is playing. *)
Record AudioElement := mkAudio {
  src : string;
  playing : bool
}.

(** The value held by the [isInterviewComplete] state.  The source sets it
    to [eventSourceRef.current && ...], which is [null] when the ref is
    [null] and a boolean otherwise. *)
Inductive JsFlag :=
| JNull
| JBool (b : bool).

Definition truthy (v : JsFlag) : bool :=
  match v with
  | JNull => false
  | JBool b => b
  end.

(** The props that drive the stream effect.  [selectedPatient] is an
    object or [null] (kept here by its name), [selectedCondition] a string
    or [null]. *)
Record Props := mkProps {
  selectedPatient : option string;
  selectedCondition : option string
}.

Definition props_truthy (p : Props) : bool :=
  match selectedPatient p, selectedCondition p with
  | Some _, Some c => negb (String.eqb c "")
  | _, _ => false
  end.

(** The state of one mounted [Interview]: the React state of the hooks,
    the refs, and the browser objects reachable from them.  Event sources
    and audio elements are identified by their index of creation; timers
    by the positive handle [setTimeout] returns, with the delay they were
    armed with. *)
Record State := mkState {
  (* useState *)
  messages : list ConversationEvent;
  isInterviewComplete : JsFlag;
  isAudioEnabled : bool;
  waitTime : Z;
  (* useRef *)
  messageQueue : list ConversationEvent;
  eventSourceRef : option nat;
  timeoutIdRef : option positive;
  currentPlayingAudio : option nat;
  isAudioEnabledRef : bool;
  waitTimeRef : Z;
  (* browser *)
  eventSources : list ReadyState;
  audios : list AudioElement;
  timers : list (positive * Z);
  nextTimer : positive
}.

Definition set_messages v s := mkState v (isInterviewComplete s) (isAudioEnabled s) (waitTime s) (messageQueue s) (eventSourceRef s) (timeoutIdRef s) (currentPlayingAudio s) (isAudioEnabledRef s) (waitTimeRef s) (eventSources s) (audios s) (timers s) (nextTimer s).
Definition set_isInterviewComplete v s := mkState (messages s) v (isAudioEnabled s) (waitTime s) (messageQueue s) (eventSourceRef s) (timeoutIdRef s) (currentPlayingAudio s) (isAudioEnabledRef s) (waitTimeRef s) (eventSources s) (audios s) (timers s) (nextTimer s).
Definition set_isAudioEnabled v s := mkState (messages s) (isInterviewComplete s) v (waitTime s) (messageQueue s) (eventSourceRef s) (timeoutIdRef s) (currentPlayingAudio s) (isAudioEnabledRef s) (waitTimeRef s) (eventSources s) (audios s) (timers s) (nextTimer s).
Definition set_waitTime v s := mkState (messages s) (isInterviewComplete s) (isAudioEnabled s) v (messageQueue s) (eventSourceRef s) (timeoutIdRef s) (currentPlayingAudio s) (isAudioEnabledRef s) (waitTimeRef s) (eventSources s) (audios s) (timers s) (nextTimer s).
Definition set_messageQueue v s := mkState (messages s) (isInterviewComplete s) (isAudioEnabled s) (waitTime s) v (eventSourceRef s) (timeoutIdRef s) (currentPlayingAudio s) (isAudioEnabledRef s) (waitTimeRef s) (eventSources s) (audios s) (timers s) (nextTimer s).
Definition set_eventSourceRef v s := mkState (messages s) (isInterviewComplete s) (isAudioEnabled s) (waitTime s) (messageQueue s) v (timeoutIdRef s) (currentPlayingAudio s) (isAudioEnabledRef s) (waitTimeRef s) (eventSources s) (audios s) (timers s) (nextTimer s).
Definition set_timeoutIdRef v s := mkState (messages s) (isInterviewComplete s) (isAudioEnabled s) (waitTime s) (messageQueue s) (eventSourceRef s) v (currentPlayingAudio s) (isAudioEnabledRef s) (waitTimeRef s) (eventSources s) (audios s) (timers s) (nextTimer s).
Definition set_currentPlayingAudio v s := mkState (messages s) (isInterviewComplete s) (isAudioEnabled s) (waitTime s) (messageQueue s) (eventSourceRef s) (timeoutIdRef s) v (isAudioEnabledRef s) (waitTimeRef s) (eventSources s) (audios s) (timers s) (nextTimer s).
Definition set_isAudioEnabledRef v s := mkState (messages s) (isInterviewComplete s) (isAudioEnabled s) (waitTime s) (messageQueue s) (eventSourceRef s) (timeoutIdRef s) (currentPlayingAudio s) v (waitTimeRef s) (eventSources s) (audios s) (timers s) (nextTimer s).
Definition set_waitTimeRef v s := mkState (messages s) (isInterviewComplete s) (isAudioEnabled s) (waitTime s) (messageQueue s) (eventSourceRef s) (timeoutIdRef s) (currentPlayingAudio s) (isAudioEnabledRef s) v (eventSources s) (audios s) (timers s) (nextTimer s).
Definition set_eventSources v s := mkState (messages s) (isInterviewComplete s) (isAudioEnabled s) (waitTime s) (messageQueue s) (eventSourceRef s) (timeoutIdRef s) (currentPlayingAudio s) (isAudioEnabledRef s) (waitTimeRef s) v (audios s) (timers s) (nextTimer s).
Definition set_audios v s := mkState (messages s) (isInterviewComplete s) (isAudioEnabled s) (waitTime s) (messageQueue s) (eventSourceRef s) (timeoutIdRef s) (currentPlayingAudio s) (isAudioEnabledRef s) (waitTimeRef s) (eventSources s) v (timers s) (nextTimer s).
Definition set_timers v s := mkState (messages s) (isInterviewComplete s) (isAudioEnabled s) (waitTime s) (messageQueue s) (eventSourceRef s) (timeoutIdRef s) (currentPlayingAudio s) (isAudioEnabledRef s) (waitTimeRef s) (eventSources s) (audios s) v (nextTimer s).
Definition set_nextTimer v s := mkState (messages s) (isInterviewComplete s) (isAudioEnabled s) (waitTime s) (messageQueue s) (eventSourceRef s) (timeoutIdRef s) (currentPlayingAudio s) (isAudioEnabledRef s) (waitTimeRef s) (eventSources s) (audios s) (timers s) v.

(** ** Browser operations used by the handlers *)

(** [clearTimeout(id)]: the timer is no longer pending. *)
Definition clearTimeout (id : positive) (s : State) : State :=
  set_timers (filter (fun t => t.1 <> id) (timers s)) s.

(** [setTimeout(processQueue, delay)]: arms a timer and returns its
    handle, a fresh positive integer. *)
Definition setTimeout (delay : Z) (s : State) : positive * State :=
  let id := nextTimer s in
  (id, set_nextTimer (Pos.succ id) (set_timers (timers s ++ [(id, delay)]) s)).

(** [new Audio(url)]. *)
Definition newAudio (url : string) (s : State) : nat * State :=
  (length (audios s), set_audios (audios s ++ [mkAudio url false]) s).

(** [audio.play()]. *)
Definition audio_play (a : nat) (s : State) : State :=
  set_audios (alter (fun el => mkAudio (src el) true) a (audios s)) s.

(** [audio.pause()]. *)
Definition audio_pause (a : nat) (s : State) : State :=
  set_audios (alter (fun el => mkAudio (src el) false) a (audios s)) s.

(** [audio.src = v]. *)
Definition audio_set_src (a : nat) (v : string) (s : State) : State :=
  set_audios (alter (fun el => mkAudio v (playing el)) a (audios s)) s.

(** [new EventSource(url)]; the URL is not kept, no handler reads it. *)
Definition newEventSource (s : State) : nat * State :=
  (length (eventSources s), set_eventSources (eventSources s ++ [CONNECTING]) s).

(** [eventSource.close()]. *)
Definition es_close (i : nat) (s : State) : State :=
  set_eventSources (alter (fun _ => CLOSED) i (eventSources s)) s.

(** ** The sequencer *)

(** The argument of [setIsInterviewComplete] in [processQueue]:
    [eventSourceRef.current &&
     eventSourceRef.current.readyState === EventSource.CLOSED]. *)
Definition channel_closed_flag (s : State) : JsFlag :=
  match eventSourceRef s with
  | None => JNull
  | Some i => JBool (bool_decide (eventSources s !! i = Some CLOSED))
  end.

Definition processQueue (s : State) : State :=
  let s := match timeoutIdRef s with
           | Some id => clearTimeout id s
           | None => s
           end in
  match messageQueue s with
  | [] =>
      let s := set_timeoutIdRef None s in
      set_isInterviewComplete (channel_closed_flag s) s
  | nextMessage :: rest =>
      let s := set_messageQueue rest s in
      let s := set_messages (messages s ++ [nextMessage]) s in
      if audio_truthy nextMessage && isAudioEnabledRef s then
        let s := match currentPlayingAudio s with
                 | Some old => audio_set_src old "" (audio_pause old s)
                 | None => s
                 end in
        let '(a, s) := newAudio (default "" (audio nextMessage)) s in
        let s := set_currentPlayingAudio (Some a) s in
        audio_play a s
      else
        let '(id, s) := setTimeout (waitTimeRef s) s in
        set_timeoutIdRef (Some id) s
  end.

(** The bodies of [audio.onended], [audio.onerror] and of the [catch] of
    [audio.play()]; they differ only in what they log. *)
Definition audio_onended (s : State) : State :=
  processQueue (set_currentPlayingAudio None s).

Definition audio_onerror (s : State) : State :=
  processQueue (set_currentPlayingAudio None s).

Definition audio_play_catch (s : State) : State :=
  processQueue (set_currentPlayingAudio None s).

(** ** The stream effect *)

(** Body of the stream effect (everything before the returned cleanup). *)
Definition setup (p : Props) (s : State) : State :=
  if negb (props_truthy p) then s
  else
    let s := set_messages [] s in
    let s := set_isInterviewComplete (JBool false) s in
    let s := set_messageQueue [] s in
    let s := match currentPlayingAudio s with
             | Some a => set_currentPlayingAudio None (audio_pause a s)
             | None => s
             end in
    let '(i, s) := newEventSource s in
    set_eventSourceRef (Some i) s.

(** The cleanup function the stream effect returns. *)
Definition cleanup (s : State) : State :=
  let s := match eventSourceRef s with
           | Some i => set_eventSourceRef None (es_close i s)
           | None => s
           end in
  let s := match timeoutIdRef s with
           | Some id => set_timeoutIdRef None (clearTimeout id s)
           | None => s
           end in
  match currentPlayingAudio s with
  | Some a => set_currentPlayingAudio None (audio_pause a s)
  | None => s
  end.

(** [eventSource.onmessage], for the event source [i] the handler closes
    over. *)
Definition onmessage (i : nat) (f : Frame) (s : State) : State :=
  match f with
  | Unparsable => s
  | EndSignal => processQueue (es_close i s)
  | Payload data =>
      let s := set_messageQueue (messageQueue s ++ [data]) s in
      match currentPlayingAudio s, timeoutIdRef s with
      | None, None => processQueue s
      | _, _ => s
      end
  end.

(** [eventSource.onerror]. *)
Definition onerror (i : nat) (s : State) : State :=
  es_close i s.

(** ** User controls *)

(** [handleToggleWaitTime], followed by the two effects that depend on
    [waitTime]: the ref is synchronised and the pump is called. *)
Definition handleToggleWaitTime (s : State) : State :=
  let s := set_waitTime (if Z.eqb (waitTime s) 1000 then 3000 else 1000)%Z s in
  let s := set_waitTimeRef (waitTime s) s in
  processQueue s.

(** [handleToggleAudio], followed by the effect that synchronises
    [isAudioEnabledRef]. *)
Definition handleToggleAudio (s : State) : State :=
  let isNowEnabled := negb (isAudioEnabled s) in
  let s := match currentPlayingAudio s with
           | Some a =>
               if negb isNowEnabled
               then set_currentPlayingAudio None
                      (audio_set_src a "" (audio_pause a s))
               else s
           | None => s
           end in
  let s := set_isAudioEnabled isNowEnabled s in
  set_isAudioEnabledRef (isAudioEnabled s) s.

(** ** The component as a transition system *)

(** State of the hooks and refs at the first render. *)
Definition initial : State :=
  mkState [] (JBool false) true 3000 [] None None None true 3000 [] [] [] 1.

(** Mounting runs the effects in the order of their declaration: the
    stream effect, then the effect on [waitTime], which calls the pump. *)
Definition mount (p : Props) : State :=
  processQueue (setup p initial).

(** What can happen to a mounted component. *)
Inductive Action :=
| SourceOpen (i : nat)
| FrameArrived (i : nat) (f : Frame)
| SourceError (i : nat)
| TimerFired (id : positive)
| AudioEnded (a : nat)
| AudioError (a : nat)
| PlayRejected (a : nat)
| ToggleAudio
| ToggleWaitTime
| Reselect (p : Props)
| Unmount.

(** The element [a] leaves the playing state on its own (it ended, it
    failed, or it never started). *)
Definition audio_stops (a : nat) (s : State) : State :=
  set_audios (alter (fun el => mkAudio (src el) false) a (audios s)) s.

Definition timer_expires (id : positive) (s : State) : State :=
  set_timers (filter (fun t => t.1 <> id) (timers s)) s.

Definition step (s : State) (act : Action) : State :=
  match act with
  | SourceOpen i => set_eventSources (alter (fun _ => OPEN) i (eventSources s)) s
  | FrameArrived i f => onmessage i f s
  | SourceError i => onerror i s
  | TimerFired id => processQueue (timer_expires id s)
  | AudioEnded a => audio_onended (audio_stops a s)
  | AudioError a => audio_onerror (audio_stops a s)
  | PlayRejected a => audio_play_catch (audio_stops a s)
  | ToggleAudio => handleToggleAudio s
  | ToggleWaitTime => handleToggleWaitTime s
  | Reselect p => setup p (cleanup s)
  | Unmount => cleanup s
  end.

Definition playing_at (l : list AudioElement) (a : nat) : bool :=
  match l !! a with
  | Some el => playing el
  | None => false
  end.

Definition is_playing (a : nat) (s : State) : bool :=
  playing_at (audios s) a.

Definition timer_pending (id : positive) (s : State) : bool :=
  bool_decide (id ∈ (timers s).*1).

(** What the browser guarantees about the signals it delivers: a source
    opens once, while connecting; frames arrive on an open source; a
    timer fires while it is pending; an audio element signals its end or
    its failure while it is playing.  The speed control is rendered only
    while audio is disabled.  The interview page is entered, and the
    selection replaced, with a patient and a condition selected
    ([PatientBuilder] lets the user go on only then), so every run of the
    stream effect returns its cleanup, and the next run or the unmount
    calls it. *)
Definition enabled (s : State) (act : Action) : bool :=
  match act with
  | SourceOpen i => bool_decide (eventSources s !! i = Some CONNECTING)
  | FrameArrived i _ => bool_decide (eventSources s !! i = Some OPEN)
  | SourceError i => bool_decide (i < length (eventSources s))
  | TimerFired id => timer_pending id s
  | AudioEnded a | AudioError a | PlayRejected a => is_playing a s
  | ToggleAudio => true
  | ToggleWaitTime => negb (isAudioEnabled s)
  | Reselect p => props_truthy p
  | Unmount => true
  end.

Inductive reachable : State -> Prop :=
| reach_mount p : props_truthy p = true -> reachable (mount p)
| reach_step s act :
    reachable s -> enabled s act = true -> reachable (step s act).

(** Running a whole schedule, enabled or not. *)
Definition run (s : State) (acts : list Action) : State :=
  fold_left step acts s.

(** Events handed to the queue by a schedule since the displayed list and
    the queue were last reset (the stream effect resets them when it runs
    with a patient and a condition). *)
Fixpoint delivered_from (acc : list ConversationEvent) (acts : list Action)
  : list ConversationEvent :=
  match acts with
  | [] => acc
  | FrameArrived _ (Payload e) :: rest => delivered_from (acc ++ [e]) rest
  | Reselect p :: rest =>
      delivered_from (if props_truthy p then [] else acc) rest
  | _ :: rest => delivered_from acc rest
  end.

Definition delivered (acts : list Action) : list ConversationEvent :=
  delivered_from [] acts.

(** Which pacing mechanism a call of the pump armed, read off the browser
    state before and after: a new audio element, a new timer. *)
Definition audio_started (s s' : State) : bool :=
  Nat.ltb (length (audios s)) (length (audios s')).

Definition timer_armed (s s' : State) : bool :=
  Pos.ltb (nextTimer s) (nextTimer s').


Definition none_playing (s : State) : Prop :=
  forall a, is_playing a s = false.

Definition all_sources_closed (s : State) : Prop :=
  forall i r, eventSources s !! i = Some r -> r = CLOSED.

(** The channel the ref points to has been seen closed. *)
Definition channel_closed (s : State) : Prop :=
  exists i, eventSourceRef s = Some i /\ eventSources s !! i = Some CLOSED.

(** The state on which the handler of [act] calls the pump, for the
    actions whose handler does: [step s act] is then [processQueue] of
    that state. *)
Definition pump_input (s : State) (act : Action) : option State :=
  match act with
  | FrameArrived i EndSignal => Some (es_close i s)
  | FrameArrived _ (Payload data) =>
      let s := set_messageQueue (messageQueue s ++ [data]) s in
      match currentPlayingAudio s, timeoutIdRef s with
      | None, None => Some s
      | _, _ => None
      end
  | TimerFired id => Some (timer_expires id s)
  | AudioEnded a | AudioError a | PlayRejected a =>
      Some (set_currentPlayingAudio None (audio_stops a s))
  | ToggleWaitTime =>
      let s := set_waitTime (if Z.eqb (waitTime s) 1000 then 3000 else 1000)%Z s in
      Some (set_waitTimeRef (waitTime s) s)
  | _ => None
  end.

(** Every event the session holds: those displayed, then those queued. *)
Definition backlog (s : State) : list ConversationEvent :=
  messages s ++ messageQueue s.

(** A schedule the browser can produce from [s]. *)
Fixpoint all_enabled (s : State) (acts : list Action) : bool :=
  match acts with
  | [] => true
  | act :: rest => enabled s act && all_enabled (step s act) rest
  end.

(** ** Invariant of the refs

    Each ref tracks the one live browser object of its kind: only the
    event source [eventSourceRef] points to can be open, only the audio
    element [currentPlayingAudio] points to can be playing, only the timer
    [timeoutIdRef] names can be pending; and the completion flag is set
    only with an empty queue and every channel closed. *)
Record Inv (s : State) : Prop := mkInv {
  inv_sources : forall i r,
    eventSources s !! i = Some r -> r <> CLOSED -> eventSourceRef s = Some i;
  inv_audios : forall a,
    is_playing a s = true -> currentPlayingAudio s = Some a;
  inv_timers : forall t,
    t ∈ timers s -> timeoutIdRef s = Some t.1;
  inv_complete :
    truthy (isInterviewComplete s) = true ->
    messageQueue s = [] /\ all_sources_closed s
}.

(** The pending timers once the pump has run its first statement. *)
Definition pending_after_clear (s : State) : list (positive * Z) :=
  match timeoutIdRef s with
  | Some id => filter (fun t => t.1 <> id) (timers s)
  | None => timers s
  end.

(** The audio elements once the pump has stopped and released the one
    [cur] points to. *)
Definition stopped (cur : option nat) (l : list AudioElement) : list AudioElement :=
  match cur with
  | Some old =>
      alter (fun el => mkAudio "" (playing el)) old
        (alter (fun el => mkAudio (src el) false) old l)
  | None => l
  end.

(** ** A sample session *)

Definition demo_props : Props := mkProps (Some "Jordan") (Some "Flu").

Definition hello : ConversationEvent :=
  mkEvent "interviewer" "Hello" None.
Definition answer : ConversationEvent :=
  mkEvent "patient" "Hi" (Some "data:audio/wav;base64,UklGRg==").
Definition report1 : ConversationEvent :=
  mkEvent "report" "# R1" None.

(** The source opens; [hello] is shown at once and paced by timer 1;
    [answer] waits in the queue; a frame that does not parse is dropped;
    timer 1 fires and [answer] is shown, paced by its audio; [report1]
    arrives meanwhile and waits. *)
Definition demo_prefix : list Action :=
  [SourceOpen 0;
   FrameArrived 0 (Payload hello);
   FrameArrived 0 (Payload answer);
   FrameArrived 0 Unparsable;
   TimerFired 1;
   FrameArrived 0 (Payload report1)].

(** ... then the audio of [answer] ends, [report1] is shown, and the end
    signal closes the channel. *)
Definition demo_schedule : list Action :=
  demo_prefix ++ [AudioEnded 0; FrameArrived 0 EndSignal].

(** A second event with audio arrives while the audio of the first is
    playing. *)
Definition demo_overlap : list Action :=
  [SourceOpen 0;
   FrameArrived 0 (Payload answer);
   FrameArrived 0 (Payload answer)].

(** ** Report revision tracker *)

(** Code units that [String.prototype.trim] strips (white space and line
    terminators), among the code units below 256. *)
Definition is_white_space (c : ascii) : bool :=
  let n := N_of_ascii c in
  ((9 <=? n) && (n <=? 13) || (n =? 32) || (n =? 160))%N.

Arguments is_white_space : simpl never.

Fixpoint trimStart (s : string) : string :=
  match s with
  | EmptyString => EmptyString
  | String c r => if is_white_space c then trimStart r else s
  end.

Fixpoint trimEnd (s : string) : string :=
  match s with
  | EmptyString => EmptyString
  | String c r =>
      match trimEnd r with
      | EmptyString => if is_white_space c then EmptyString else String c EmptyString
      | r' => String c r'
      end
  end.

(** [s.trim()]. *)
Definition trim (s : string) : string := trimEnd (trimStart s).

(** The pair of states [prevReport], [currentReport]. *)
Record ReportRevision := mkRevision {
  prevReport : string;
  currentReport : string
}.


Section ReportTracker.
(** The markdown renderer of the [marked] package. *)
Variable marked : string -> string.

Definition reportMessages (msgs : list ConversationEvent)
  : list ConversationEvent :=
  filter (fun msg => speaker msg = "report") msgs.

(** What the tracker renders for a report text. *)
Definition renderReport (t : string) : string := marked (trim t).

(** The effect "Update report on new messages". *)
Definition reportEffect (msgs : list ConversationEvent) (r : ReportRevision)
  : ReportRevision :=
  match last (reportMessages msgs) with
  | Some latest =>
      let newReport := marked (trim (text latest)) in
      if String.eqb newReport (currentReport r) then r
      else mkRevision (currentReport r) newReport
  | None => r
  end.
End ReportTracker.

(** ** Visual diff of two report revisions *)

(** A change object of the [diff] package: a value and the two flags
    [added] and [removed]. *)
Record Change (A : Type) := mkChange {
  value : A;
  added : bool;
  removed : bool
}.
Arguments mkChange {A} _ _ _.
Arguments value {A} _.
Arguments added {A} _.
Arguments removed {A} _.

(** The double quote, for the [class] attributes of the spans. *)
Definition dquote : string := String (ascii_of_nat 34) EmptyString.

Definition span_add (v : string) : string :=
  "<span class=" ++ dquote ++ "add" ++ dquote ++ ">" ++ v ++ "</span>".

Definition span_remove (v : string) : string :=
  "<span class=" ++ dquote ++ "remove" ++ dquote ++ ">" ++ v ++ "</span>".

(** [value.join("")]. *)
Definition join (l : list string) : string := fold_right String.append "" l.

(** Longest prefix of code units satisfying [p], and the rest. *)
Fixpoint span (p : ascii -> bool) (s : string) : string * string :=
  match s with
  | EmptyString => (EmptyString, EmptyString)
  | String c r =>
      if p c then let '(a, b) := span p r in (String c a, b)
      else (EmptyString, s)
  end.

Definition not_gt (c : ascii) : bool := negb (Ascii.eqb c ">").
Definition not_lt (c : ascii) : bool := negb (Ascii.eqb c "<").

(** A match of [<[^>]+>] at the start of [s]: the token and the rest.
    The greedy [[^>]+] takes every code unit up to the next [>]; giving
    some back cannot help, since what follows would not be [>]. *)
Definition match_tag (s : string) : option (string * string) :=
  match s with
  | String c r =>
      if Ascii.eqb c "<" then
        match span not_gt r with
        | (String b body, String d rest) =>
            if Ascii.eqb d ">" then Some (String c (String b body ++ String d ""), rest)
            else None
        | _ => None
        end
      else None
  | EmptyString => None
  end.

(** A match of [[^<]+] at the start of [s]. *)
Definition match_text (s : string) : option (string * string) :=
  match span not_lt s with
  | (String c t, rest) => Some (String c t, rest)
  | _ => None
  end.

(** All matches of [/(<[^>]+>|[^<]+)/g], left to right; where neither
    alternative matches, the scan moves on by one code unit.  Every round
    consumes at least one code unit, so [n] rounds suffice for a string of
    length [n]. *)
Fixpoint matches (n : nat) (s : string) : list string :=
  match n with
  | O => []
  | S n' =>
      match s with
      | EmptyString => []
      | String _ r =>
          match match_tag s with
          | Some (tok, rest) => tok :: matches n' rest
          | None =>
              match match_text s with
              | Some (tok, rest) => tok :: matches n' rest
              | None => matches n' r
              end
          end
      end
  end.

(** [html.match(/(<[^>]+>|[^<]+)/g) || []]. *)
Definition tokenizeHTML (html : string) : list string :=
  matches (String.length html) html.

(** [/^<[^>]+>$/.test(s)]. *)
Definition is_bare_tag (s : string) : bool :=
  match match_tag s with
  | Some (_, EmptyString) => true
  | _ => false
  end.

Section Diff.
(** [diffArrays] and [diffWords] of the [diff] package. *)
Variable diffArrays : list string -> list string -> list (Change (list string)).
Variable diffWords : string -> string -> list (Change string).

(** The [map] over the inner word diff. *)
Definition innerPart (part : Change string) : string :=
  if added part then span_add (value part)
  else if removed part then span_remove (value part)
  else value part.

Definition innerResult (removedText addedText : string) : string :=
  join (map innerPart (diffWords removedText addedText)).

(** The three-way branch at the end of the loop body. *)
Definition wrapPart (part : Change (list string)) : string :=
  if added part then span_add (join (value part))
  else if removed part then span_remove (join (value part))
  else join (value part).

(** The [for] loop over [diffParts], from index [i] on. *)
Fixpoint diffLoop (diffParts : list (Change (list string))) : string :=
  match diffParts with
  | [] => ""
  | part :: rest =>
      match rest with
      | next :: rest' =>
          if removed part && added next
             && negb (is_bare_tag (join (value part)))
             && negb (is_bare_tag (join (value next)))
          then innerResult (join (value part)) (join (value next)) ++ diffLoop rest'
          else wrapPart part ++ diffLoop rest
      | [] => wrapPart part
      end
  end.

Definition getDiffReport (prevReport currentReport : string) : string :=
  diffLoop (diffArrays (tokenizeHTML prevReport) (tokenizeHTML currentReport)).

(** What the report pane shows:
    [prevReport ? getDiffReport() : currentReport]. *)
Definition reportPane (r : ReportRevision) : string :=
  if String.eqb (prevReport r) "" then currentReport r
  else getDiffReport (prevReport r) (currentReport r).
End Diff.

(** Strings the tokenizer splits without loss: a sequence of tags
    [<...>] (a non-empty body without [>]) and of code units other than
    [<]. *)
Fixpoint all_chars (p : ascii -> bool) (s : string) : bool :=
  match s with
  | EmptyString => true
  | String c r => p c && all_chars p r
  end.

Inductive markup : string -> Prop :=
| markup_nil : markup ""
| markup_tag c body rest :
    not_gt c = true -> all_chars not_gt body = true -> markup rest ->
    markup (String "<" (String c body ++ ">") ++ rest)
| markup_text c rest :
    not_lt c = true -> markup rest -> markup (String c rest).

(** What the contract of [diffArrays] says for equal inputs: only
    unchanged parts, which together are the input. *)
Definition unchanged_only (parts : list (Change (list string))) : Prop :=
  Forall (fun part => added part = false /\ removed part = false) parts.

Definition same_input_contract
  (diffArrays : list string -> list string -> list (Change (list string)))
  : Prop :=
  forall toks, unchanged_only (diffArrays toks toks)
               /\ concat (map value (diffArrays toks toks)) = toks.

(** ** A reference differ

    A small differ that meets the contracts used below; it instantiates
    the two parameters of [getDiffReport] in the examples. *)
Inductive Edit := Keep (x : string) | Del (x : string) | Ins (x : string).

Definition is_keep (e : Edit) : bool :=
  match e with Keep _ => true | _ => false end.

Definition cost (es : list Edit) : nat :=
  length (List.filter (fun e => negb (is_keep e)) es).

Fixpoint script (xs : list string) : list string -> list Edit :=
  fix inner (ys : list string) : list Edit :=
    match xs, ys with
    | [], _ => map Ins ys
    | _, [] => map Del xs
    | x :: xs', y :: ys' =>
        if String.eqb x y then Keep x :: script xs' ys'
        else
          let del := Del x :: script xs' ys in
          let ins := Ins y :: inner ys' in
          if Nat.leb (cost del) (cost ins) then del else ins
    end.

(** Runs of edits of one kind become one change object. *)
Fixpoint runs (es : list Edit) : list (Change (list string)) :=
  match es with
  | [] => []
  | e :: rest =>
      match e, runs rest with
      | Keep x, mkChange v false false :: more => mkChange (x :: v) false false :: more
      | Del x, mkChange v false true :: more => mkChange (x :: v) false true :: more
      | Ins x, mkChange v true false :: more => mkChange (x :: v) true false :: more
      | Keep x, more => mkChange [x] false false :: more
      | Del x, more => mkChange [x] false true :: more
      | Ins x, more => mkChange [x] true false :: more
      end
  end.

Definition ref_diffArrays (xs ys : list string) : list (Change (list string)) :=
  runs (script xs ys).

Definition ref_diffWords (a b : string) : list (Change string) :=
  if String.eqb a b then [mkChange a false false]
  else [mkChange a false true; mkChange b true false].

(** ** Sample revisions *)

(** A stand-in for the renderer, for the examples. *)
Definition demo_marked (t : string) : string := "<p>" ++ t ++ "</p>".

(** A revision with a [<] that opens no tag: inside the quoted attribute
    value it is followed at once by [>]. *)
Definition stray_lt_html : string := "<i title='><>'>x</i>".

(** ** Controls and pacing, further notions *)

(** What the two toggles and the pump keep true of the settings: the
    wait interval is one of the two presets, each ref mirrors its state,
    every pending timer was armed with a preset, at most one timer is
    pending, and nothing is tracked as playing while audio is off. *)
Record Settings (s : State) : Prop := mkSettings {
  set_wait : waitTime s = 1000%Z \/ waitTime s = 3000%Z;
  set_wait_ref : waitTimeRef s = waitTime s;
  set_audio_ref : isAudioEnabledRef s = isAudioEnabled s;
  set_delays : forall t, t ∈ timers s -> t.2 = 1000%Z \/ t.2 = 3000%Z;
  set_one_timer : length (timers s) <= 1;
  set_muted : isAudioEnabledRef s = false -> currentPlayingAudio s = None
}.

(** The pending timer expires. *)
Definition fire_timer (s : State) : State :=
  match timers s with
  | (id, _) :: _ => step s (TimerFired id)
  | [] => s
  end.

Fixpoint fire_timers (n : nat) (s : State) : State :=
  match n with
  | O => s
  | S n' => fire_timers n' (fire_timer s)
  end.

(** The schedule starts no new session. *)
Definition restarts (act : Action) : bool :=
  match act with
  | Reselect p => props_truthy p
  | _ => false
  end.

(** ** The evaluation request *)

(** [s.replace(pat, rep)] with a string pattern: the leftmost occurrence
    only. *)
Fixpoint strip_prefix (pat s : string) : option string :=
  match pat, s with
  | EmptyString, _ => Some s
  | String a pat', String b s' =>
      if Ascii.eqb a b then strip_prefix pat' s' else None
  | String _ _, EmptyString => None
  end.

Fixpoint replace_first (pat rep s : string) : string :=
  match strip_prefix pat s with
  | Some rest => rep ++ rest
  | None =>
      match s with
      | EmptyString => EmptyString
      | String c s' => String c (replace_first pat rep s')
      end
  end.

Definition newline : string := String (ascii_of_nat 10) EmptyString.
Definition fence_open : string := "```html" ++ newline.
Definition fence_close : string := newline ++ "```".

(** [data.evaluation.replace('```html\n','').replace('\n```','')]. *)
Definition stripFence (evaluation : string) : string :=
  replace_first fence_close "" (replace_first fence_open "" evaluation).

Definition is_backtick (c : ascii) : bool := Ascii.eqb c "`".
Definition not_backtick (c : ascii) : bool := negb (is_backtick c).

Section Evaluation.
Variable marked : string -> string.

(** The [report] field of the body posted to [/api/evaluate_report]. *)
Definition evaluationReport (msgs : list ConversationEvent) : string :=
  match last (reportMessages msgs) with
  | Some latest => marked (trim (text latest))
  | None => "<p>No report available.</p>"
  end.

(** The report effect, run once for each successive value of
    [messages]. *)
Definition trackReports (history : list (list ConversationEvent))
    (r : ReportRevision) : ReportRevision :=
  fold_left (fun r msgs => reportEffect marked msgs r) history r.
End Evaluation.

(** ** What the tokenizer can lose *)

(** [t] is [s] with some of its [<] left out. *)
Inductive drops_lt : string -> string -> Prop :=
| drops_nil : drops_lt "" ""
| drops_keep c s t : drops_lt s t -> drops_lt (String c s) (String c t)
| drops_skip s t : drops_lt s t -> drops_lt (String "<" s) t.

(** ** Page navigation and patient selection ([App], [PatientBuilder]) *)

Module App.

(** A patient of the catalogue, by the fields the logic reads.  The
    catalogue gives each patient its own [id], so two patient objects are
    the same object exactly when these records are equal. *)
Record Patient := mkPatient {
  id : nat;
  name : string;
  existing_condition : string
}.

#[global] Instance Patient_eq_dec : EqDecision Patient.
Proof. solve_decision. Defined.

Record Condition := mkCondition {
  cond_name : string;
  description : string
}.

Inductive Page := welcome | patientBuilder | rolePlayDialogs | interview.

(** The three states of [App]. *)
Record State := mkState {
  currentPage : Page;
  selectedPatient : option Patient;
  selectedCondition : option string
}.

Definition initial : State := mkState welcome None None.

Definition condition_truthy (c : option string) : bool :=
  match c with
  | Some v => negb (String.eqb v "")
  | None => false
  end.

(** The effect of [PatientBuilder] on [selectedPatient] that withdraws
    the condition. *)
Definition conditionEffect (st : State) : State :=
  match selectedPatient st, selectedCondition st with
  | Some p, Some c =>
      if negb (String.eqb (existing_condition p) "depression")
         && String.eqb c "Serotonin Syndrome"
      then mkState (currentPage st) (selectedPatient st) None
      else st
  | _, _ => st
  end.

(** [isDisabled] of a condition card. *)
Definition isDisabled (cond : Condition) (st : State) : bool :=
  String.eqb (cond_name cond) "Serotonin Syndrome"
  && match selectedPatient st with
     | Some p => negb (String.eqb (existing_condition p) "Depression")
     | None => false
     end.

(** [handleGo]. *)
Definition handleGo (st : State) : State :=
  match selectedPatient st with
  | Some _ =>
      if condition_truthy (selectedCondition st)
      then mkState rolePlayDialogs (selectedPatient st) (selectedCondition st)
      else st
  | None => st
  end.

(** What the user can do. *)
Inductive Action :=
| SwitchPage
| ClickPatient (p : Patient)
| ClickCondition (cond : Condition)
| Go
| Start
| Back.

(** Entering the patient builder mounts it, which runs its effects. *)
Definition enterPatientBuilder (st : State) : State :=
  conditionEffect (mkState patientBuilder (selectedPatient st) (selectedCondition st)).

(** One user action; a control that the current page does not render
    does nothing.  Clicking the patient already selected sets the state
    to the value it has, and no effect runs. *)
Definition step (st : State) (act : Action) : State :=
  match currentPage st, act with
  | welcome, SwitchPage => enterPatientBuilder st
  | patientBuilder, ClickPatient p =>
      if decide (selectedPatient st = Some p) then st
      else conditionEffect (mkState patientBuilder (Some p) (selectedCondition st))
  | patientBuilder, ClickCondition cond =>
      if isDisabled cond st then st
      else mkState patientBuilder (selectedPatient st) (Some (cond_name cond))
  | patientBuilder, Go => handleGo st
  | patientBuilder, Back => mkState welcome (selectedPatient st) (selectedCondition st)
  | rolePlayDialogs, Start => mkState interview (selectedPatient st) (selectedCondition st)
  | rolePlayDialogs, Back => enterPatientBuilder st
  | interview, Back => mkState rolePlayDialogs (selectedPatient st) (selectedCondition st)
  | _, _ => st
  end.

Definition run (st : State) (acts : list Action) : State :=
  fold_left step acts st.

Inductive reachable : State -> Prop :=
| reach_initial : reachable initial
| reach_step st act : reachable st -> reachable (step st act).

(** The props [App] hands to [Interview]. *)
Definition interviewProps (st : State) : Props :=
  mkProps (name <$> selectedPatient st) (selectedCondition st).

End App.

(** Sample sessions for the examples. *)
Definition demo_muted : list Action :=
  [SourceOpen 0;
   ToggleAudio;
   FrameArrived 0 (Payload hello);
   FrameArrived 0 (Payload answer);
   FrameArrived 0 (Payload report1)].

Definition jordan : App.Patient := App.mkPatient 1 "Jordan" "Depression".
Definition serotonin : App.Condition :=
  App.mkCondition "Serotonin Syndrome" "".

(** ** Runs the word diff is not consulted for *)

(** The test of the loop for descending to the word diff: a removed run
    directly followed by an added run, neither of them one bare tag. *)
Definition prose_pair (part next : Change (list string)) : bool :=
  removed part && added next
  && negb (is_bare_tag (join (value part)))
  && negb (is_bare_tag (join (value next))).

Fixpoint no_prose_pair (parts : list (Change (list string))) : bool :=
  match parts with
  | part :: rest =>
      match rest with
      | next :: _ => negb (prose_pair part next) && no_prose_pair rest
      | [] => true
      end
  | [] => true
  end.

(** * Properties *)

(** ** Lookups in the lists of browser objects *)

Lemma playing_at_stop (l : list AudioElement) a b :
  playing_at (alter (fun el => mkAudio (src el) false) a l) b = true ->
  playing_at l b = true /\ a <> b.
Proof.
  unfold playing_at. rewrite list_lookup_alter.
  destruct (decide (a = b)) as [->|Hne].
  - destruct (l !! b); simpl; discriminate.
  - auto.
Qed.

Lemma playing_at_set_src (l : list AudioElement) a v b :
  playing_at (alter (fun el => mkAudio v (playing el)) a l) b = playing_at l b.
Proof.
  unfold playing_at. rewrite list_lookup_alter.
  destruct (decide (a = b)) as [->|Hne]; [|done].
  destruct (l !! b); done.
Qed.

Lemma source_after_close (l : list ReadyState) i j r :
  alter (fun _ => CLOSED) i l !! j = Some r -> r <> CLOSED ->
  l !! j = Some r /\ i <> j.
Proof.
  rewrite list_lookup_alter. destruct (decide (i = j)) as [->|Hne]; [|done].
  destruct (l !! j); simpl; intros [= <-]; done.
Qed.

Lemma filter_timers_nil (l : list (positive * Z)) id :
  (forall t, t ∈ l -> Some id = Some t.1) ->
  filter (fun t => t.1 <> id) l = [].
Proof.
  intros H. induction l as [|t l IH]; [done|].
  rewrite filter_cons. destruct (decide (t.1 <> id)) as [Hne|_].
  - exfalso. apply Hne. specialize (H t ltac:(left)). congruence.
  - apply IH. intros t' Ht'. apply H. by right.
Qed.

(** ** The pump, case by case *)

Ltac break_state s :=
  destruct s as [ms ic ae wt q esr tr cur aer wtr ess aus tms nt].

Lemma stopped_length cur l : length (stopped cur l) = length l.
Proof. destruct cur; simpl; [|done]. by rewrite !length_alter. Qed.

(** The queue is empty: the timer ref is cleared and the completion flag
    is assigned. *)
Lemma processQueue_idle s :
  messageQueue s = [] ->
  processQueue s =
    mkState (messages s) (channel_closed_flag s) (isAudioEnabled s) (waitTime s)
      [] (eventSourceRef s) None (currentPlayingAudio s)
      (isAudioEnabledRef s) (waitTimeRef s)
      (eventSources s) (audios s) (pending_after_clear s) (nextTimer s).
Proof.
  break_state s. cbn. intros ->. unfold processQueue, pending_after_clear.
  destruct tr; reflexivity.
Qed.

(** The head of the queue is released and paced by its audio. *)
Lemma processQueue_audio s m rest :
  messageQueue s = m :: rest ->
  audio_truthy m && isAudioEnabledRef s = true ->
  processQueue s =
    mkState (messages s ++ [m]) (isInterviewComplete s) (isAudioEnabled s) (waitTime s)
      rest (eventSourceRef s) (timeoutIdRef s) (Some (length (audios s)))
      (isAudioEnabledRef s) (waitTimeRef s)
      (eventSources s)
      (stopped (currentPlayingAudio s) (audios s)
         ++ [mkAudio (default "" (audio m)) true])
      (pending_after_clear s) (nextTimer s).
Proof.
  break_state s. cbn. intros -> Hb. unfold processQueue, pending_after_clear.
  destruct tr; cbn; rewrite Hb; destruct cur; cbn; unfold audio_play; cbn.
  all: rewrite ?length_alter; f_equal.
  all: rewrite <- (Nat.add_0_r (length aus)) at 1.
  all: try (rewrite <- (length_alter (fun el => mkAudio (src el) false) aus n) at 1;
       rewrite <- (length_alter (fun el => mkAudio "" (playing el)) _ n) at 1).
  all: by rewrite alter_app_r.
Qed.

(** The head of the queue is released and paced by a timer. *)
Lemma processQueue_timer s m rest :
  messageQueue s = m :: rest ->
  audio_truthy m && isAudioEnabledRef s = false ->
  processQueue s =
    mkState (messages s ++ [m]) (isInterviewComplete s) (isAudioEnabled s) (waitTime s)
      rest (eventSourceRef s) (Some (nextTimer s)) (currentPlayingAudio s)
      (isAudioEnabledRef s) (waitTimeRef s)
      (eventSources s) (audios s)
      (pending_after_clear s ++ [(nextTimer s, waitTimeRef s)])
      (Pos.succ (nextTimer s)).
Proof.
  break_state s. cbn. intros -> Hb. unfold processQueue, pending_after_clear.
  destruct tr; cbn; rewrite Hb; reflexivity.
Qed.

(** ** The invariant is kept by every handler *)

Lemma pending_after_clear_nil s :
  (forall t, t ∈ timers s -> timeoutIdRef s = Some t.1) ->
  pending_after_clear s = [].
Proof.
  unfold pending_after_clear. intros H. destruct (timeoutIdRef s) as [id|].
  - apply filter_timers_nil. auto.
  - destruct (timers s) as [|t l]; [done|]. by specialize (H t ltac:(left)).
Qed.

Lemma playing_at_stopped cur l a :
  playing_at (stopped cur l) a = true ->
  playing_at l a = true /\ cur <> Some a.
Proof.
  destruct cur as [old|]; simpl; [|done].
  rewrite playing_at_set_src. intros [H Hne]%playing_at_stop.
  split; [done|congruence].
Qed.

Lemma playing_at_snoc_true l url a :
  playing_at (l ++ [mkAudio url true]) a = true ->
  a = length l \/ playing_at l a = true.
Proof.
  unfold playing_at. destruct (decide (a < length l)) as [Hlt|Hge].
  - rewrite lookup_app_l by done. auto.
  - rewrite lookup_app_r by lia. destruct (a - length l) as [|k] eqn:E.
    + left. lia.
    + simpl. by destruct k.
Qed.

Lemma closed_flag_all_closed s :
  (forall i r, eventSources s !! i = Some r -> r <> CLOSED -> eventSourceRef s = Some i) ->
  truthy (channel_closed_flag s) = true -> all_sources_closed s.
Proof.
  unfold channel_closed_flag. intros Hsrc Ht j r Hj.
  destruct (eventSourceRef s) as [i|] eqn:E; [|done]. simpl in Ht.
  apply bool_decide_eq_true in Ht.
  destruct (decide (r = CLOSED)) as [|Hne]; [done|].
  specialize (Hsrc j r Hj Hne). congruence.
Qed.

Lemma processQueue_inv s : Inv s -> Inv (processQueue s).
Proof.
  intros [Hsrc Haud Htim Hcomp].
  pose proof (pending_after_clear_nil s Htim) as Hnil.
  destruct (messageQueue s) as [|m rest] eqn:Hq.
  - rewrite (processQueue_idle s Hq), Hnil.
    split; cbn; auto.
    + intros t Ht. by apply elem_of_nil in Ht.
    + intros Ht. split; [done|]. by apply closed_flag_all_closed.
  - destruct (audio_truthy m && isAudioEnabledRef s) eqn:Hb.
    + rewrite (processQueue_audio s m rest Hq Hb), Hnil.
      split; cbn; auto.
      * unfold is_playing; cbn.
        intros a [->|Ha]%playing_at_snoc_true.
        -- by rewrite stopped_length.
        -- apply playing_at_stopped in Ha as [Ha Hne]. by apply Haud in Ha.
      * intros t Ht. by apply elem_of_nil in Ht.
      * intros Ht. destruct (Hcomp Ht) as [Hq' _]. congruence.
    + rewrite (processQueue_timer s m rest Hq Hb), Hnil.
      split; cbn; auto.
      * intros t Ht. apply list_elem_of_singleton in Ht. by subst.
      * intros Ht. destruct (Hcomp Ht) as [Hq' _]. congruence.
Qed.

Lemma Inv_ext s s' :
  Inv s ->
  eventSources s' = eventSources s -> eventSourceRef s' = eventSourceRef s ->
  audios s' = audios s -> currentPlayingAudio s' = currentPlayingAudio s ->
  timers s' = timers s -> timeoutIdRef s' = timeoutIdRef s ->
  (truthy (isInterviewComplete s') = true ->
   truthy (isInterviewComplete s) = true /\ messageQueue s' = messageQueue s) ->
  Inv s'.
Proof.
  intros [Hsrc Haud Htim Hcomp] E1 E2 E3 E4 E5 E6 Hc.
  split; unfold is_playing, all_sources_closed in *.
  - rewrite E1, E2. auto.
  - rewrite E3, E4. auto.
  - rewrite E5, E6. auto.
  - intros Ht. destruct (Hc Ht) as [Ht' ->]. rewrite E1. auto.
Qed.

Lemma cleanup_inv s : Inv s -> Inv (cleanup s).
Proof.
  intros [Hsrc Haud Htim Hcomp]. break_state s.
  unfold is_playing, all_sources_closed, cleanup in *. cbn in *.
  destruct esr as [i|], tr as [id|], cur as [a|]; cbn.
  all: split; unfold is_playing, all_sources_closed; cbn; try done.
  all: try (intros j r Hj Hne; apply source_after_close in Hj as [Hj Hij]; [|done];
            specialize (Hsrc j r Hj Hne); congruence).
  all: try (intros b [Hb Hab]%playing_at_stop; apply Haud in Hb; congruence).
  all: try (intros t [Hne Ht]%list_elem_of_filter; apply Htim in Ht; simpl in Hne; congruence).
  all: try (intros t Ht; by apply Htim in Ht).
  all: try (intros Ht; destruct (Hcomp Ht) as [-> Hall]; split; [done|];
            intros j r; rewrite list_lookup_alter; destruct (decide (i = j)) as [->|];
            [destruct (ess !! j); simpl; congruence | apply Hall]).
Qed.

Lemma cleanup_quiet s :
  Inv s ->
  all_sources_closed (cleanup s) /\ none_playing (cleanup s)
  /\ timers (cleanup s) = [] /\ eventSourceRef (cleanup s) = None
  /\ timeoutIdRef (cleanup s) = None /\ currentPlayingAudio (cleanup s) = None.
Proof.
  intros [Hsrc Haud Htim Hcomp]. break_state s.
  unfold is_playing, all_sources_closed, none_playing, cleanup in *. cbn in *.
  assert (Hnil : forall id, tr = Some id -> filter (fun t : positive * Z => t.1 <> id) tms = []).
  { intros id ->. apply filter_timers_nil. auto. }
  assert (Hnone : tr = None -> tms = []).
  { intros ->. destruct tms as [|t l]; [done|]. by specialize (Htim t ltac:(left)). }
  assert (Hstop : forall a b, cur = Some a ->
            playing_at (alter (fun el => mkAudio (src el) false) a aus) b = false).
  { intros a b ->. destruct (playing_at _ b) eqn:E; [|done].
    apply playing_at_stop in E as [E Hne]. apply Haud in E. congruence. }
  assert (Hquiet : forall b, cur = None -> playing_at aus b = false).
  { intros b ->. destruct (playing_at aus b) eqn:E; [|done]. by apply Haud in E. }
  assert (Hclosed : forall i j r, esr = Some i ->
            alter (fun _ => CLOSED) i ess !! j = Some r -> r = CLOSED).
  { intros i j r -> Hj. destruct (decide (r = CLOSED)) as [|Hne]; [done|].
    apply source_after_close in Hj as [Hj Hij]; [|done].
    specialize (Hsrc j r Hj Hne). congruence. }
  assert (Hnoref : forall j r, esr = None -> ess !! j = Some r -> r = CLOSED).
  { intros j r -> Hj. destruct (decide (r = CLOSED)) as [|Hne]; [done|].
    by specialize (Hsrc j r Hj Hne). }
  destruct esr as [i|], tr as [id|], cur as [a|]; cbn; unfold is_playing; cbn.
  all: repeat split; eauto.
Qed.

Lemma setup_inv p s : Inv s -> all_sources_closed s -> Inv (setup p s).
Proof.
  intros HI Hall. unfold setup. destruct (props_truthy p); [|done]. cbn.
  destruct HI as [Hsrc Haud Htim Hcomp]. break_state s.
  unfold is_playing, all_sources_closed in *. cbn in *.
  destruct cur as [a|]; cbn.
  all: split; unfold is_playing, all_sources_closed; cbn; try done.
  all: try (intros j r Hj Hne; destruct (decide (j < length ess)) as [Hlt|Hge];
       [ rewrite lookup_app_l in Hj by done; apply Hall in Hj; done
       | rewrite lookup_app_r in Hj by lia; destruct (j - length ess) as [|k] eqn:E;
         [ f_equal; lia | by destruct k ] ]).
  all: try (intros b [Hb Hab]%playing_at_stop; apply Haud in Hb; congruence).
Qed.

Lemma handleToggleAudio_inv s : Inv s -> Inv (handleToggleAudio s).
Proof.
  intros [Hsrc Haud Htim Hcomp]. break_state s.
  unfold is_playing, all_sources_closed, handleToggleAudio in *. cbn in *.
  destruct cur as [a|], ae; cbn.
  all: split; unfold is_playing, all_sources_closed; cbn; try done.
  intros b. rewrite playing_at_set_src.
  intros [Hb Hab]%playing_at_stop. apply Haud in Hb. congruence.
Qed.

(** ** The invariant holds in every reachable state *)

Lemma step_pump s act s0 :
  pump_input s act = Some s0 -> step s act = processQueue s0.
Proof.
  destruct act as [i|i [| |data]|i|id|a|a|a| | |p|]; cbn; try discriminate.
  all: try (intros [= <-]; reflexivity).
  destruct (currentPlayingAudio s), (timeoutIdRef s); try discriminate.
  intros [= <-]. reflexivity.
Qed.

Lemma pump_input_inv s act s0 :
  Inv s -> enabled s act = true -> pump_input s act = Some s0 -> Inv s0.
Proof.
  intros HI Hen Hin.
  destruct act as [i|i [| |data]|i|id|a|a|a| | |p|]; cbn in *; try congruence.
  - (* end signal *)
    injection Hin as <-. apply bool_decide_eq_true in Hen.
    destruct HI as [Hsrc Haud Htim Hcomp].
    assert (Href : eventSourceRef s = Some i) by (by apply (Hsrc i OPEN)).
    split; unfold is_playing, all_sources_closed, es_close in *; cbn; auto.
    + intros j r Hj Hne. apply source_after_close in Hj as [Hj Hij]; [|done].
      specialize (Hsrc j r Hj Hne). congruence.
    + intros Ht. destruct (Hcomp Ht) as [_ Hall]. by apply Hall in Hen.
  - (* conversation event *)
    apply bool_decide_eq_true in Hen.
    destruct (currentPlayingAudio s), (timeoutIdRef s); try congruence.
    injection Hin as <-. apply (Inv_ext s); try done. cbn. intros Ht.
    destruct HI as [_ _ _ Hcomp]. destruct (Hcomp Ht) as [_ Hall].
    by apply Hall in Hen.
  - (* timer *)
    injection Hin as <-. destruct HI as [Hsrc Haud Htim Hcomp].
    split; unfold is_playing, all_sources_closed, timer_expires in *; cbn; auto.
    intros t [_ Ht]%list_elem_of_filter. auto.
  - injection Hin as <-. destruct HI as [Hsrc Haud Htim Hcomp].
    split; unfold is_playing, all_sources_closed, audio_stops in *; cbn; auto.
    intros b [Hb Hab]%playing_at_stop. apply Haud in Hb.
    apply Haud in Hen. congruence.
  - injection Hin as <-. destruct HI as [Hsrc Haud Htim Hcomp].
    split; unfold is_playing, all_sources_closed, audio_stops in *; cbn; auto.
    intros b [Hb Hab]%playing_at_stop. apply Haud in Hb.
    apply Haud in Hen. congruence.
  - injection Hin as <-. destruct HI as [Hsrc Haud Htim Hcomp].
    split; unfold is_playing, all_sources_closed, audio_stops in *; cbn; auto.
    intros b [Hb Hab]%playing_at_stop. apply Haud in Hb.
    apply Haud in Hen. congruence.
  - injection Hin as <-. by apply (Inv_ext s).
Qed.

Lemma step_inv s act : Inv s -> enabled s act = true -> Inv (step s act).
Proof.
  intros HI Hen. destruct (pump_input s act) as [s0|] eqn:Hin.
  { rewrite (step_pump s act s0 Hin).
    by apply processQueue_inv, (pump_input_inv s act). }
  destruct act as [i|i [| |data]|i|id|a|a|a| | |p|]; cbn in *; try congruence.
  - (* the source opens *)
    apply bool_decide_eq_true in Hen.
    destruct HI as [Hsrc Haud Htim Hcomp].
    split; unfold is_playing, all_sources_closed in *; cbn; auto.
    + intros j r. rewrite list_lookup_alter.
      destruct (decide (i = j)) as [->|]; [|apply Hsrc].
      intros _ _. by apply (Hsrc j CONNECTING).
    + intros Ht. destruct (Hcomp Ht) as [_ Hall]. by apply Hall in Hen.
  - (* a conversation event arrives while an event is being paced *)
    apply bool_decide_eq_true in Hen.
    assert (Hpush : Inv (set_messageQueue (messageQueue s ++ [data]) s)).
    { apply (Inv_ext s); try done. cbn. intros Ht.
      destruct HI as [_ _ _ Hcomp]. destruct (Hcomp Ht) as [_ Hall].
      by apply Hall in Hen. }
    by destruct (currentPlayingAudio s), (timeoutIdRef s).
  - (* transport error *)
    destruct HI as [Hsrc Haud Htim Hcomp].
    split; unfold is_playing, all_sources_closed, onerror, es_close in *; cbn; auto.
    + intros j r Hj Hne. apply source_after_close in Hj as [Hj Hij]; [|done]. eauto.
    + intros Ht. destruct (Hcomp Ht) as [-> Hall]. split; [done|].
      intros j r. rewrite list_lookup_alter.
      destruct (decide (i = j)) as [->|]; [|apply Hall].
      destruct (eventSources s !! j); simpl; congruence.
  - by apply handleToggleAudio_inv.
  - apply setup_inv; [by apply cleanup_inv|]. by apply cleanup_quiet.
  - by apply cleanup_inv.
Qed.

Lemma initial_inv : Inv initial.
Proof.
  split; unfold is_playing, all_sources_closed; cbn; try done.
  intros t Ht. by apply elem_of_nil in Ht.
Qed.

Lemma mount_inv p : Inv (mount p).
Proof.
  apply processQueue_inv, setup_inv; [apply initial_inv|]. by intros i r.
Qed.

Lemma reachable_inv s : reachable s -> Inv s.
Proof.
  induction 1 as [p _|s act _ IH Hen]; [apply mount_inv|by apply step_inv].
Qed.

(** ** Schedules *)

Lemma run_reachable acts : forall s,
  reachable s -> all_enabled s acts = true -> reachable (run s acts).
Proof.
  induction acts as [|act rest IH]; intros s Hs Hen; cbn in *; [done|].
  apply andb_prop in Hen as [Hact Hrest].
  apply IH; [by apply reach_step|done].
Qed.

(** ** The displayed list and the queue *)

Lemma processQueue_backlog s : backlog (processQueue s) = backlog s.
Proof.
  unfold backlog. destruct (messageQueue s) as [|m rest] eqn:Hq.
  - by rewrite (processQueue_idle s Hq).
  - destruct (audio_truthy m && isAudioEnabledRef s) eqn:Hb.
    + rewrite (processQueue_audio s m rest Hq Hb). cbn. by rewrite <- app_assoc.
    + rewrite (processQueue_timer s m rest Hq Hb). cbn. by rewrite <- app_assoc.
Qed.

Lemma cleanup_backlog s :
  messages (cleanup s) = messages s /\ messageQueue (cleanup s) = messageQueue s.
Proof.
  break_state s. unfold cleanup. cbn.
  by destruct esr, tr, cur.
Qed.

Lemma setup_backlog p s :
  backlog (setup p s) = if props_truthy p then [] else backlog s.
Proof.
  unfold setup, backlog. destruct (props_truthy p); [|done]. cbn.
  by destruct (currentPlayingAudio s).
Qed.

Lemma step_backlog s act :
  backlog (step s act) =
    match act with
    | FrameArrived _ (Payload e) => (backlog s ++ [e])%list
    | Reselect p => if props_truthy p then [] else backlog s
    | _ => backlog s
    end.
Proof.
  destruct act as [i|i f|i|id|a|a|a| | |p|]; cbn.
  - done.
  - destruct f as [| |data]; cbn.
    + done.
    + by rewrite processQueue_backlog.
    + destruct (currentPlayingAudio s), (timeoutIdRef s); cbn;
        rewrite ?processQueue_backlog; unfold backlog; cbn; by rewrite app_assoc.
  - done.
  - by rewrite processQueue_backlog.
  - unfold audio_onended. by rewrite processQueue_backlog.
  - unfold audio_onerror. by rewrite processQueue_backlog.
  - unfold audio_play_catch. by rewrite processQueue_backlog.
  - unfold handleToggleAudio, backlog. break_state s. cbn. by destruct cur, ae.
  - unfold handleToggleWaitTime. by rewrite processQueue_backlog.
  - rewrite setup_backlog. unfold backlog.
    by destruct (cleanup_backlog s) as [-> ->].
  - unfold backlog. by destruct (cleanup_backlog s) as [-> ->].
Qed.

Lemma run_backlog acts : forall s,
  backlog (run s acts) = delivered_from (backlog s) acts.
Proof.
  induction acts as [|act rest IH]; intros s; [done|].
  change (backlog (run (step s act) rest) = delivered_from (backlog s) (act :: rest)).
  rewrite IH, step_backlog.
  destruct act as [i|i [| |e]|i|id|a|a|a| | |p|]; done.
Qed.

Lemma mount_backlog p : backlog (mount p) = [].
Proof.
  unfold mount. rewrite processQueue_backlog, setup_backlog.
  by destruct (props_truthy p).
Qed.

(** C1. Whatever the schedule of frames, timer expiries, audio signals and
    user actions after mounting, once the queue is empty the displayed
    messages are exactly the conversation events delivered since the
    session started, in their order of arrival: none dropped, none
    repeated, none moved.  Frames that do not parse and the end signal are
    not among them. *)
Theorem displayed_is_delivered (p : Props) (acts : list Action) :
  messageQueue (run (mount p) acts) = [] ->
  messages (run (mount p) acts) = delivered acts.
Proof.
  intros Hq. pose proof (run_backlog acts (mount p)) as H.
  rewrite mount_backlog in H. unfold backlog in H.
  by rewrite Hq, app_nil_r in H.
Qed.

Lemma displayed_is_delivered_witness :
  messages (run (mount demo_props) demo_schedule) = [hello; answer; report1].
Proof.
  apply (displayed_is_delivered demo_props demo_schedule).
  vm_compute. reflexivity.
Defined.

(** ** The completion flag *)

Lemma processQueue_channel s :
  eventSourceRef (processQueue s) = eventSourceRef s
  /\ eventSources (processQueue s) = eventSources s.
Proof.
  destruct (messageQueue s) as [|m rest] eqn:Hq.
  - by rewrite (processQueue_idle s Hq).
  - destruct (audio_truthy m && isAudioEnabledRef s) eqn:Hb.
    + by rewrite (processQueue_audio s m rest Hq Hb).
    + by rewrite (processQueue_timer s m rest Hq Hb).
Qed.

Lemma closed_flag_channel s :
  truthy (channel_closed_flag s) = true -> channel_closed s.
Proof.
  unfold channel_closed_flag, channel_closed.
  destruct (eventSourceRef s) as [i|]; [|done]. cbn.
  intros H%bool_decide_eq_true. eauto.
Qed.

Lemma processQueue_completes s :
  truthy (isInterviewComplete s) = false ->
  truthy (isInterviewComplete (processQueue s)) = true ->
  messageQueue (processQueue s) = [] /\ channel_closed (processQueue s).
Proof.
  intros Hold Hnew.
  destruct (processQueue_channel s) as [Eref Esrc].
  unfold channel_closed. rewrite Eref, Esrc. clear Eref Esrc.
  destruct (messageQueue s) as [|m rest] eqn:Hq.
  - rewrite (processQueue_idle s Hq) in *. cbn in *.
    split; [done|]. by apply closed_flag_channel.
  - destruct (audio_truthy m && isAudioEnabledRef s) eqn:Hb.
    + rewrite (processQueue_audio s m rest Hq Hb) in Hnew. cbn in Hnew. congruence.
    + rewrite (processQueue_timer s m rest Hq Hb) in Hnew. cbn in Hnew. congruence.
Qed.

Lemma step_completes s act :
  truthy (isInterviewComplete s) = false ->
  truthy (isInterviewComplete (step s act)) = true ->
  messageQueue (step s act) = [] /\ channel_closed (step s act).
Proof.
  intros Hold Hnew. destruct act as [i|i f|i|id|a|a|a| | |p|]; cbn in *.
  - congruence.
  - destruct f as [| |data]; cbn in *.
    + congruence.
    + by apply processQueue_completes.
    + destruct (currentPlayingAudio s), (timeoutIdRef s); cbn in *; try congruence.
      by apply processQueue_completes.
  - congruence.
  - by apply processQueue_completes.
  - by apply processQueue_completes.
  - by apply processQueue_completes.
  - by apply processQueue_completes.
  - exfalso. revert Hnew. unfold handleToggleAudio. break_state s. cbn in *.
    destruct cur, ae; cbn; congruence.
  - by apply processQueue_completes.
  - exfalso. revert Hnew. unfold setup. destruct (props_truthy p); cbn.
    + by destruct (currentPlayingAudio (cleanup s)).
    + break_state s. unfold cleanup. cbn in *. destruct esr, tr, cur; cbn; congruence.
  - exfalso. revert Hnew. break_state s. unfold cleanup. cbn in *.
    destruct esr, tr, cur; cbn; congruence.
Qed.

(** C2. In every reachable state the completion flag is falsy while the
    queue holds an event, whatever the state of the channel; a step that
    makes the flag truthy ends with an empty queue and with the channel
    the ref points to closed; and a call of the pump that finds the queue
    empty assigns the flag from the channel-closed test. *)
Theorem completion_flag_sound (s : State) :
  reachable s ->
  (messageQueue s <> [] -> truthy (isInterviewComplete s) = false)
  /\ (forall act,
        truthy (isInterviewComplete s) = false ->
        truthy (isInterviewComplete (step s act)) = true ->
        messageQueue (step s act) = [] /\ channel_closed (step s act))
  /\ (messageQueue s = [] ->
      isInterviewComplete (processQueue s) = channel_closed_flag s).
Proof.
  intros Hs. apply reachable_inv in Hs as [_ _ _ Hcomp]. repeat split.
  - intros Hne. destruct (truthy (isInterviewComplete s)); [|done].
    by destruct (Hcomp eq_refl).
  - by apply step_completes.
  - by apply step_completes.
  - intros Hq. by rewrite (processQueue_idle s Hq).
Qed.

Lemma completion_flag_sound_witness :
  let s := run (mount demo_props) demo_prefix in
  truthy (isInterviewComplete s) = false
  /\ isInterviewComplete (run s [AudioEnded 0; FrameArrived 0 EndSignal]) = JBool true.
Proof.
  pose proof (completion_flag_sound (run (mount demo_props) demo_prefix)) as H.
  destruct H as [H _].
  - apply run_reachable; [by apply reach_mount|vm_compute; reflexivity].
  - split; [apply H; vm_compute; discriminate|vm_compute; reflexivity].
Defined.

(** ** Pacing *)

(** C3. Each event the pump releases arms exactly one pacing mechanism:
    a new audio element is created and played exactly when the event has
    a non-empty audio reference and audio is enabled at that moment, and
    then no timer is armed or left pending; otherwise a timer is armed
    with the configured wait interval, it is the only pending one, and no
    audio element is created. *)
Theorem pacing_is_exclusive (s : State) (act : Action) (s0 : State)
    (m : ConversationEvent) (rest : list ConversationEvent) :
  reachable s ->
  enabled s act = true ->
  pump_input s act = Some s0 ->
  messageQueue s0 = m :: rest ->
  let byAudio := audio_truthy m && isAudioEnabledRef s0 in
  let s' := step s act in
  messages s' = (messages s0 ++ [m])%list
  /\ audio_started s0 s' = byAudio
  /\ timer_armed s0 s' = negb byAudio
  /\ (byAudio = true ->
        currentPlayingAudio s' = Some (length (audios s0))
        /\ audios s' !! length (audios s0)
             = Some (mkAudio (default "" (audio m)) true)
        /\ timers s' = [])
  /\ (byAudio = false ->
        timeoutIdRef s' = Some (nextTimer s0)
        /\ timers s' = [(nextTimer s0, waitTimeRef s0)]
        /\ audios s' = audios s0).
Proof.
  intros Hs Hen Hin Hq byAudio s'. subst s'.
  rewrite (step_pump s act s0 Hin).
  apply reachable_inv in Hs.
  destruct (pump_input_inv s act s0 Hs Hen Hin) as [_ _ Htim _].
  pose proof (pending_after_clear_nil s0 Htim) as Hnil.
  unfold audio_started, timer_armed.
  destruct byAudio eqn:Hb; subst byAudio.
  - rewrite (processQueue_audio s0 m rest Hq Hb), Hnil. cbn.
    rewrite length_app, stopped_length. cbn.
    repeat split; try done.
    + apply Nat.ltb_lt. lia.
    + apply Pos.ltb_irrefl.
    + rewrite lookup_app_r by (rewrite stopped_length; lia).
      by rewrite stopped_length, Nat.sub_diag.
  - rewrite (processQueue_timer s0 m rest Hq Hb), Hnil. cbn.
    repeat split; try done.
    + apply Nat.ltb_irrefl.
    + apply Pos.ltb_lt. lia.
Qed.

Lemma pacing_is_exclusive_witness :
  let s := run (mount demo_props) demo_prefix in
  let s' := step s (AudioEnded 0) in
  messages s' = [hello; answer; report1]
  /\ timers s' = [(2%positive, 3000%Z)]
  /\ audios s' = audios (audio_stops 0 s).
Proof.
  intros s s'.
  destruct (pacing_is_exclusive s (AudioEnded 0)
              (set_currentPlayingAudio None (audio_stops 0 s)) report1 [])
    as (Hm & _ & _ & _ & Ht).
  - apply run_reachable; [by apply reach_mount|vm_compute; reflexivity].
  - vm_compute; reflexivity.
  - reflexivity.
  - vm_compute; reflexivity.
  - destruct Ht as (_ & Ht & Ha); [vm_compute; reflexivity|].
    vm_compute in Hm, Ht, Ha. vm_compute. repeat split; assumption.
Defined.

(** ** One audio element at a time *)



(** The guarantee rests on the browser delivering the signals of an audio
    element only while that element plays.  The three handlers clear
    [currentPlayingAudio] without looking at which element raised the
    signal: run on a signal of an element the pump has already stopped,
    they drop the ref to the element that plays now, and the next one is
    started beside it. *)
Lemma late_signal_of_stopped_element :
  let s := run (mount demo_props)
             (demo_overlap ++ [FrameArrived 0 (Payload answer);
                               FrameArrived 0 EndSignal]) in
  enabled s (AudioError 0) = false
  /\ is_playing 1 (step s (AudioError 0)) = true
  /\ is_playing 2 (step s (AudioError 0)) = true.
Proof. vm_compute. by repeat split. Qed.

(** ** Audio failure *)

(** C5. When the audio of the event being paced fails (an [error] event,
    or [play()] rejecting), the component ends in the same state as when
    that audio ends normally: the ref is cleared, the pump runs, and the
    next queued event is displayed and leaves the queue. *)
Theorem audio_failure_is_completion (s : State) (a : nat)
    (m : ConversationEvent) (rest : list ConversationEvent) :
  is_playing a s = true ->
  messageQueue s = m :: rest ->
  step s (AudioError a) = step s (AudioEnded a)
  /\ step s (PlayRejected a) = step s (AudioEnded a)
  /\ step s (AudioError a)
       = processQueue (set_currentPlayingAudio None (audio_stops a s))
  /\ messages (step s (AudioError a)) = (messages s ++ [m])%list
  /\ messageQueue (step s (AudioError a)) = rest
  /\ is_playing a (step s (AudioError a)) = false.
Proof.
  intros Hplay Hq. repeat split.
  - pose (s0 := set_currentPlayingAudio None (audio_stops a s)).
    assert (Hq0 : messageQueue s0 = m :: rest) by done.
    change (messages (processQueue s0) = (messages s0 ++ [m])%list).
    destruct (audio_truthy m && isAudioEnabledRef s0) eqn:Hb.
    + by rewrite (processQueue_audio s0 m rest Hq0 Hb).
    + by rewrite (processQueue_timer s0 m rest Hq0 Hb).
  - pose (s0 := set_currentPlayingAudio None (audio_stops a s)).
    assert (Hq0 : messageQueue s0 = m :: rest) by done.
    change (messageQueue (processQueue s0) = rest).
    destruct (audio_truthy m && isAudioEnabledRef s0) eqn:Hb.
    + by rewrite (processQueue_audio s0 m rest Hq0 Hb).
    + by rewrite (processQueue_timer s0 m rest Hq0 Hb).
  - pose (s0 := set_currentPlayingAudio None (audio_stops a s)).
    assert (Hq0 : messageQueue s0 = m :: rest) by done.
    assert (Hlt : a < length (audios s)).
    { unfold is_playing, playing_at in Hplay.
      destruct (audios s !! a) eqn:E; [|done]. by apply lookup_lt_Some in E. }
    assert (Hoff : playing_at (audios s0) a = false).
    { unfold s0, audio_stops, playing_at. cbn. rewrite list_lookup_alter_eq.
      by destruct (audios s !! a). }
    change (is_playing a (processQueue s0) = false).
    unfold is_playing.
    destruct (audio_truthy m && isAudioEnabledRef s0) eqn:Hb.
    + rewrite (processQueue_audio s0 m rest Hq0 Hb). cbn.
      unfold playing_at in *.
      rewrite lookup_app_l by (by rewrite length_alter). done.
    + by rewrite (processQueue_timer s0 m rest Hq0 Hb).
Qed.

Lemma audio_failure_is_completion_witness :
  let s := run (mount demo_props) demo_prefix in
  step s (AudioError 0) = step s (AudioEnded 0)
  /\ messages (step s (AudioError 0)) = [hello; answer; report1].
Proof.
  intros s.
  destruct (audio_failure_is_completion s 0 report1 [])
    as (Heq & _ & _ & Hm & _); try (vm_compute; reflexivity).
  split; [exact Heq|exact Hm].
Defined.

(** ** Teardown *)




(** ** Trimming *)



Lemma trimStart_cases s :
  trimStart s = "" \/ exists c r, trimStart s = String c r /\ is_white_space c = false.
Proof.
  induction s as [|c r IH]; cbn; [by left|].
  destruct (is_white_space c) eqn:E; [done|]. right. eauto.
Qed.



Lemma trimStart_padding ws s :
  all_chars is_white_space ws = true -> trimStart (ws ++ s) = trimStart s.
Proof.
  induction ws as [|c r IH]; cbn; [done|].
  intros [Hc Hr]%andb_prop. simpl. rewrite Hc. auto.
Qed.

Lemma trimEnd_blank ws :
  all_chars is_white_space ws = true -> trimEnd ws = "".
Proof.
  induction ws as [|c r IH]; cbn; [done|].
  intros [Hc Hr]%andb_prop. by rewrite (IH Hr), Hc.
Qed.

Lemma trimEnd_padding s ws :
  all_chars is_white_space ws = true -> trimEnd (s ++ ws) = trimEnd s.
Proof.
  intros Hws. induction s as [|c r IH]; simpl; [by apply trimEnd_blank|].
  by rewrite IH.
Qed.

Lemma trimStart_blank ws :
  all_chars is_white_space ws = true -> trimStart ws = "".
Proof.
  induction ws as [|c r IH]; simpl; [done|].
  intros [Hc Hr]%andb_prop. rewrite Hc. auto.
Qed.

Lemma trimStart_nil_blank s :
  trimStart s = "" -> all_chars is_white_space s = true.
Proof.
  induction s as [|c r IH]; simpl; [done|].
  destruct (is_white_space c); [auto|done].
Qed.

Lemma all_chars_app p s1 s2 :
  all_chars p s1 = true -> all_chars p s2 = true -> all_chars p (s1 ++ s2) = true.
Proof.
  intros H1 H2. induction s1 as [|c r IH]; simpl in *; [done|].
  apply andb_prop in H1 as [Hc Hr]. rewrite Hc. auto.
Qed.

Lemma trimStart_keeps_tail s ws c r :
  trimStart s = String c r -> trimStart (s ++ ws) = trimStart s ++ ws.
Proof.
  induction s as [|d s IH]; simpl; [done|].
  destruct (is_white_space d); [auto|done].
Qed.

Lemma trim_padding ws1 s ws2 :
  all_chars is_white_space ws1 = true ->
  all_chars is_white_space ws2 = true ->
  trim (ws1 ++ s ++ ws2) = trim s.
Proof.
  intros H1 H2. unfold trim. rewrite (trimStart_padding ws1 _ H1).
  destruct (trimStart_cases s) as [E|(c & r & E & Hc)].
  - rewrite E, trimStart_blank; [done|].
    apply all_chars_app; [by apply trimStart_nil_blank|done].
  - rewrite (trimStart_keeps_tail s ws2 c r E). by apply trimEnd_padding.
Qed.

(** ** The report effect *)

Section ReportProperties.
Variable marked : string -> string.




End ReportProperties.



(** ** Strings *)

Lemma str_app_nil_l s : "" ++ s = s.
Proof. reflexivity. Qed.

Lemma str_app_cons c r s : String c r ++ s = String c (r ++ s).
Proof. reflexivity. Qed.

Lemma str_app_nil_r s : s ++ "" = s.
Proof.
  induction s as [|c r IH]; [done|]. by rewrite str_app_cons, IH.
Qed.

Lemma str_app_assoc a b c : (a ++ b) ++ c = a ++ (b ++ c).
Proof.
  induction a as [|x r IH]; [done|]. by rewrite !str_app_cons, IH.
Qed.

Lemma str_length_app a b :
  String.length (a ++ b) = String.length a + String.length b.
Proof.
  induction a as [|x r IH]; [done|]. rewrite str_app_cons. simpl. by rewrite IH.
Qed.

Lemma join_cons x l : join (x :: l) = x ++ join l.
Proof. reflexivity. Qed.

Lemma join_app l1 l2 : join (l1 ++ l2)%list = join l1 ++ join l2.
Proof.
  induction l1 as [|x l IH]; [done|].
  by rewrite <- app_comm_cons, !join_cons, IH, str_app_assoc.
Qed.

(** ** The tokenizer *)

Lemma span_app p s a b : span p s = (a, b) -> s = a ++ b.
Proof.
  revert a b. induction s as [|c r IH]; simpl; intros a b.
  - by intros [= <- <-].
  - destruct (p c).
    + destruct (span p r) as [a' b']. intros [= <- <-].
      by rewrite str_app_cons, <- (IH a' b' eq_refl).
    + by intros [= <- <-].
Qed.

Lemma match_tag_shorter s tok rest :
  match_tag s = Some (tok, rest) -> String.length rest < String.length s.
Proof.
  unfold match_tag. destruct s as [|c r]; [done|].
  destruct (Ascii.eqb c "<"); [|done].
  destruct (span not_gt r) as [a b] eqn:E.
  destruct a as [|x body]; [done|]. destruct b as [|d b]; [done|].
  destruct (Ascii.eqb d ">"); [|done]. intros [= <- <-].
  apply span_app in E as ->. cbn [String.length]. rewrite str_length_app. simpl. lia.
Qed.

Lemma match_text_shorter s tok rest :
  match_text s = Some (tok, rest) -> String.length rest < String.length s.
Proof.
  unfold match_text. destruct (span not_lt s) as [a b] eqn:E.
  destruct a as [|x t]; [done|]. intros [= <- <-].
  apply span_app in E as ->. rewrite str_length_app. simpl. lia.
Qed.

Lemma matches_fuel n : forall m s,
  String.length s <= n -> String.length s <= m -> matches n s = matches m s.
Proof.
  induction n as [|n IH]; intros m s Hn Hm.
  - destruct s; simpl in *; [by destruct m|lia].
  - destruct m as [|m]; [destruct s; simpl in *; [done|lia]|].
    destruct s as [|c r]; [done|]. cbn [matches]. simpl in Hn, Hm.
    destruct (match_tag (String c r)) as [[tok rest]|] eqn:Etag.
    + apply match_tag_shorter in Etag. simpl in Etag.
      f_equal. apply IH; lia.
    + destruct (match_text (String c r)) as [[tok rest]|] eqn:Etext.
      * apply match_text_shorter in Etext. simpl in Etext.
        f_equal. apply IH; lia.
      * apply IH; lia.
Qed.

Lemma span_stop p body d rest :
  all_chars p body = true -> p d = false ->
  span p (body ++ String d rest) = (body, String d rest).
Proof.
  intros Hbody Hd. induction body as [|c r IH].
  - rewrite str_app_nil_l. simpl. by rewrite Hd.
  - simpl in Hbody. apply andb_prop in Hbody as [Hc Hr].
    rewrite str_app_cons. simpl. by rewrite Hc, (IH Hr).
Qed.

Lemma match_tag_tag c body rest :
  not_gt c = true -> all_chars not_gt body = true ->
  match_tag (String "<" (String c body ++ ">") ++ rest)
  = Some (String "<" (String c body ++ ">"), rest).
Proof.
  intros Hc Hbody. unfold match_tag.
  rewrite str_app_cons, Ascii.eqb_refl, str_app_assoc.
  change (">" ++ rest) with (String ">" rest).
  rewrite (span_stop not_gt (String c body) ">" rest); [|simpl; by rewrite Hc|done].
  by rewrite Ascii.eqb_refl.
Qed.

Lemma match_tag_text c r : not_lt c = true -> match_tag (String c r) = None.
Proof.
  unfold not_lt, match_tag. intros H%negb_true_iff. by rewrite H.
Qed.

Lemma markup_inv c r :
  markup (String c r) ->
  (not_lt c = true /\ markup r)
  \/ (c = "<"%char
      /\ exists b body rest,
           not_gt b = true /\ all_chars not_gt body = true /\ markup rest
           /\ r = (String b body ++ ">") ++ rest).
Proof.
  inversion 1 as [|b body rest Hb Hbody Hrest Heq|c' rest Hc Hrest Heq].
  - right. split; [done|]. by exists b, body, rest.
  - left. by subst.
Qed.

Lemma markup_after_text r a b :
  markup r -> span not_lt r = (a, b) -> markup b.
Proof.
  revert a b. induction r as [|d r IH]; simpl; intros a b Hr.
  - intros [= <- <-]. constructor.
  - destruct (not_lt d) eqn:Hd.
    + destruct (span not_lt r) as [a' b'] eqn:E. intros [= <- <-].
      apply (IH a' b'); [|done].
      apply markup_inv in Hr as [[_ Hr]|[-> _]]; done.
    + by intros [= <- <-].
Qed.

Lemma matches_lossless n : forall s,
  String.length s <= n -> markup s -> join (matches n s) = s.
Proof.
  induction n as [|n IH]; intros s Hlen Hs.
  - destruct s; simpl in *; [done|lia].
  - destruct s as [|c r]; [done|]. simpl in Hlen.
    destruct (markup_inv c r Hs)
      as [[Hc Hr]|[-> (b & body & rest & Hb & Hbody & Hrest & ->)]].
    + cbn [matches]. rewrite (match_tag_text c r Hc).
      unfold match_text. simpl span. rewrite Hc.
      destruct (span not_lt r) as [a b'] eqn:E.
      pose proof (span_app _ _ _ _ E) as ->.
      rewrite join_cons, IH; [done| |by apply (markup_after_text _ a b' Hr)].
      rewrite str_length_app in Hlen. lia.
    + rewrite <- str_app_cons. cbn [matches].
      rewrite str_app_cons at 1. cbv iota beta.
      rewrite (match_tag_tag b body rest Hb Hbody).
      rewrite join_cons, IH; [done| |done].
      rewrite !str_length_app in Hlen. lia.
Qed.

Lemma tokenize_lossless html : markup html -> join (tokenizeHTML html) = html.
Proof. intros H. by apply matches_lossless. Qed.

Lemma span_all p s a b : span p s = (a, b) -> all_chars p a = true.
Proof.
  revert a b. induction s as [|c r IH]; simpl; intros a b.
  - by intros [= <- <-].
  - destruct (p c) eqn:Hc.
    + destruct (span p r) as [a' b']. intros [= <- <-]. simpl.
      by rewrite Hc, (IH a' b' eq_refl).
    + by intros [= <- <-].
Qed.

Lemma markup_text_app t rest :
  all_chars not_lt t = true -> markup rest -> markup (t ++ rest).
Proof.
  intros Ht Hrest. induction t as [|c r IH]; [done|].
  simpl in Ht. apply andb_prop in Ht as [Hc Hr].
  rewrite str_app_cons. constructor; auto.
Qed.

Lemma match_tag_markup s tok rest tail :
  match_tag s = Some (tok, rest) -> markup tail -> markup (tok ++ tail).
Proof.
  unfold match_tag. destruct s as [|c r]; [done|].
  destruct (Ascii.eqb c "<") eqn:Hc; [|done]. apply Ascii.eqb_eq in Hc as ->.
  destruct (span not_gt r) as [a b] eqn:E.
  destruct a as [|x body]; [done|]. destruct b as [|d b]; [done|].
  destruct (Ascii.eqb d ">") eqn:Hd; [|done]. apply Ascii.eqb_eq in Hd as ->.
  intros [= <- <-] Htail.
  apply span_all in E. simpl in E. apply andb_prop in E as [Hx Hbody].
  by apply markup_tag.
Qed.

Lemma matches_markup n : forall s, markup (join (matches n s)).
Proof.
  induction n as [|n IH]; intros s; [constructor|].
  destruct s as [|c r]; [constructor|]. cbn [matches].
  destruct (match_tag (String c r)) as [[tok rest]|] eqn:Etag.
  - rewrite join_cons. by apply (match_tag_markup _ _ _ _ Etag).
  - unfold match_text. destruct (span not_lt (String c r)) as [a b] eqn:E.
    destruct a as [|x t]; [apply IH|].
    rewrite join_cons. apply markup_text_app; [|apply IH].
    by apply span_all in E.
Qed.

Lemma tokenize_lossless_iff html :
  join (tokenizeHTML html) = html <-> markup html.
Proof.
  split; [|apply tokenize_lossless].
  intros <-. apply matches_markup.
Qed.

(** ** The diff loop *)

Section DiffProperties.
Variable diffArrays : list string -> list string -> list (Change (list string)).
Variable diffWords : string -> string -> list (Change string).

Lemma diffLoop_unchanged parts :
  unchanged_only parts ->
  diffLoop diffWords parts = join (concat (map value parts)).
Proof.
  induction 1 as [|part rest [Ha Hr] _ IH]; [done|].
  cbn [map concat]. rewrite join_app, <- IH.
  cbn [diffLoop]. rewrite Hr. cbn [andb].
  unfold wrapPart. rewrite Ha, Hr.
  destruct rest; [|done]. by rewrite str_app_nil_r.
Qed.

Lemma getDiffReport_same html :
  same_input_contract diffArrays ->
  getDiffReport diffArrays diffWords html html = join (tokenizeHTML html).
Proof.
  intros Hc. unfold getDiffReport.
  destruct (Hc (tokenizeHTML html)) as [Hun Hcat].
  by rewrite (diffLoop_unchanged _ Hun), Hcat.
Qed.

(** C6, amended. For a differ that reports equal token lists as
    unchanged, diffing a revision against itself gives the revision
    back, with no span added, exactly when the revision splits into
    tokens without loss: when it is a sequence of tags [<...>] and of
    code units other than [<].  The empty string is such a revision. *)
Theorem diff_of_identical_revisions (html : string) :
  same_input_contract diffArrays ->
  (markup html -> getDiffReport diffArrays diffWords html html = html)
  /\ (getDiffReport diffArrays diffWords html html = html -> markup html)
  /\ getDiffReport diffArrays diffWords "" "" = "".
Proof.
  intros Hc. rewrite (getDiffReport_same html Hc), (getDiffReport_same "" Hc).
  split; [|split; [|done]]; apply tokenize_lossless_iff.
Qed.

(** C7. Diffing [<p>A</p>] against [<p>B</p>], with a differ that
    reports the token [A] as removed and [B] as added between the two
    unchanged tags, and the word [A] as replaced by [B], wraps [A] in a
    span of class [remove] and [B] in a span of class [add] and leaves
    the two tags as they are. *)
Theorem diff_of_replaced_text :
  diffArrays ["<p>"; "A"; "</p>"] ["<p>"; "B"; "</p>"]
    = [mkChange ["<p>"] false false; mkChange ["A"] false true;
       mkChange ["B"] true false; mkChange ["</p>"] false false] ->
  diffWords "A" "B" = [mkChange "A" false true; mkChange "B" true false] ->
  getDiffReport diffArrays diffWords "<p>A</p>" "<p>B</p>"
  = "<p>" ++ span_remove "A" ++ span_add "B" ++ "</p>".
Proof.
  intros Harr Hwords. unfold getDiffReport.
  change (tokenizeHTML "<p>A</p>") with ["<p>"; "A"; "</p>"].
  change (tokenizeHTML "<p>B</p>") with ["<p>"; "B"; "</p>"].
  rewrite Harr. cbn [diffLoop removed added value andb].
  change (join ["A"]) with "A". change (join ["B"]) with "B".
  change (is_bare_tag "A") with false. change (is_bare_tag "B") with false.
  cbn [negb andb]. unfold innerResult. rewrite Hwords.
  reflexivity.
Qed.
(** What the report pane shows when both revisions are the same: the
    revision itself. *)
Lemma pane_of_identical_revisions (html : string) :
  same_input_contract diffArrays -> markup html ->
  reportPane diffArrays diffWords (mkRevision html html) = html.
Proof.
  intros Hc Hm. unfold reportPane. cbn.
  destruct (String.eqb html ""); [done|].
  by rewrite (getDiffReport_same html Hc), tokenize_lossless.
Qed.
End DiffProperties.

(** ** The reference differ meets the contracts *)

Lemma script_same xs : script xs xs = map Keep xs.
Proof.
  induction xs as [|x xs IH]; [done|].
  cbn. by rewrite String.eqb_refl, IH.
Qed.

Lemma runs_keep xs :
  runs (map Keep xs) = match xs with [] => [] | _ => [mkChange xs false false] end.
Proof.
  induction xs as [|x xs IH]; [done|].
  cbn [map runs]. rewrite IH. by destruct xs.
Qed.

Lemma ref_diffArrays_same : same_input_contract ref_diffArrays.
Proof.
  intros toks. unfold ref_diffArrays. rewrite script_same, runs_keep.
  destruct toks as [|t toks]; [by split; [constructor|]|].
  split; [by repeat constructor|]. cbn. by rewrite app_nil_r.
Qed.

(** Whatever differ meets the contract, that revision loses its second
    [<]. *)
Lemma stray_lt_is_lost diffArrays diffWords :
  same_input_contract diffArrays ->
  getDiffReport diffArrays diffWords stray_lt_html stray_lt_html
  = "<i title='>>'>x</i>".
Proof. intros Hc. by rewrite (getDiffReport_same _ _ _ Hc). Qed.

(** C6, as stated, fails: in this revision the second [<] is followed at
    once by [>], the tokenizer skips it, and the diff of the revision
    against itself has lost it. *)
Lemma stray_lt_breaks_identity_diff :
  getDiffReport ref_diffArrays ref_diffWords stray_lt_html stray_lt_html
  = "<i title='>>'>x</i>"
  /\ getDiffReport ref_diffArrays ref_diffWords stray_lt_html stray_lt_html
     <> stray_lt_html.
Proof. split; [vm_compute; reflexivity|vm_compute; discriminate]. Qed.

Lemma diff_of_identical_revisions_witness :
  getDiffReport ref_diffArrays ref_diffWords "<p>A</p>" "<p>A</p>" = "<p>A</p>".
Proof.
  apply (diff_of_identical_revisions ref_diffArrays ref_diffWords "<p>A</p>"
           ref_diffArrays_same).
  apply (markup_tag "p" "" "A</p>"); [reflexivity|reflexivity|].
  apply markup_text; [reflexivity|].
  apply (markup_tag "/" "p" ""); [reflexivity|reflexivity|].
  apply markup_nil.
Defined.

Lemma diff_of_replaced_text_witness :
  getDiffReport ref_diffArrays ref_diffWords "<p>A</p>" "<p>B</p>"
  = "<p>" ++ span_remove "A" ++ span_add "B" ++ "</p>".
Proof.
  apply (diff_of_replaced_text ref_diffArrays ref_diffWords);
    vm_compute; reflexivity.
Defined.

(** * Further properties of the sequencer *)

(** ** Settings of the two toggles *)

Lemma pending_after_clear_sub s t :
  t ∈ pending_after_clear s -> t ∈ timers s.
Proof.
  unfold pending_after_clear. destruct (timeoutIdRef s); [|done].
  by intros [_ H]%list_elem_of_filter.
Qed.

Lemma processQueue_settings s : Inv s -> Settings s -> Settings (processQueue s).
Proof.
  intros HI [Hw Hwr Har Hd H1 Hm].
  pose proof (pending_after_clear_nil s (inv_timers s HI)) as Hnil.
  destruct (messageQueue s) as [|m rest] eqn:Hq.
  - rewrite (processQueue_idle s Hq), Hnil. split; cbn; auto.
    all: try (intros t Ht; by apply elem_of_nil in Ht).
  - destruct (audio_truthy m && isAudioEnabledRef s) eqn:Hb.
    + rewrite (processQueue_audio s m rest Hq Hb), Hnil. split; cbn; auto.
      all: try (intros t Ht; by apply elem_of_nil in Ht).
      intros Hoff. by rewrite Hoff, andb_false_r in Hb.
    + rewrite (processQueue_timer s m rest Hq Hb), Hnil. split; cbn; auto.
      intros t Ht. apply list_elem_of_singleton in Ht. subst t. cbn.
      by rewrite Hwr.
Qed.

Lemma pump_input_settings s act s0 :
  Settings s -> pump_input s act = Some s0 -> Settings s0.
Proof.
  intros [Hw Hwr Har Hd H1 Hm] Hin.
  destruct act as [i|i [| |data]|i|id|a|a|a| | |p|]; cbn in *; try congruence.
  - injection Hin as <-. split; cbn; auto.
  - destruct (currentPlayingAudio s) eqn:Ec, (timeoutIdRef s); try congruence.
    injection Hin as <-. split; cbn; auto.
  - injection Hin as <-. split; cbn; auto.
    all: try (intros t [_ Ht]%list_elem_of_filter; auto).
    all: try (etrans; [apply length_filter|done]).
  - injection Hin as <-. (split; cbn; auto).
  - injection Hin as <-. (split; cbn; auto).
  - injection Hin as <-. (split; cbn; auto).
  - injection Hin as <-. split; cbn; auto.
    destruct (waitTime s =? 1000)%Z; auto.
Qed.

Lemma cleanup_settings s : Settings s -> Settings (cleanup s).
Proof.
  intros [Hw Hwr Har Hd H1 Hm]. break_state s. unfold cleanup. cbn in *.
  destruct esr, tr, cur; split; cbn; auto.
  all: try (intros t [_ Ht]%list_elem_of_filter; auto).
  all: try (etrans; [apply length_filter|done]).
Qed.

Lemma setup_settings p s : Settings s -> Settings (setup p s).
Proof.
  intros HS. unfold setup. destruct (props_truthy p); [|done].
  destruct HS as [Hw Hwr Har Hd H1 Hm]. break_state s. cbn in *.
  destruct cur; (split; cbn; auto).
Qed.

Lemma step_settings s act :
  Inv s -> enabled s act = true -> Settings s -> Settings (step s act).
Proof.
  intros HI Hen HS. destruct (pump_input s act) as [s0|] eqn:Hin.
  { rewrite (step_pump s act s0 Hin). apply processQueue_settings.
    - by apply (pump_input_inv s act).
    - by apply (pump_input_settings s act). }
  destruct act as [i|i [| |data]|i|id|a|a|a| | |p|]; cbn in *; try congruence.
  - destruct HS. (split; cbn; auto).
  - assert (Hpush : Settings (set_messageQueue (messageQueue s ++ [data]) s))
      by (destruct HS; split; cbn; auto).
    by destruct (currentPlayingAudio s), (timeoutIdRef s).
  - destruct HS. (split; cbn; auto).
  - destruct HS as [Hw Hwr Har Hd H1 Hm]. break_state s.
    unfold handleToggleAudio. cbn in *. destruct cur, ae; (split; cbn; auto).
  - by apply setup_settings, cleanup_settings.
  - by apply cleanup_settings.
Qed.

Lemma reachable_settings s : reachable s -> Settings s.
Proof.
  induction 1 as [p _|s act Hs IH Hen].
  - unfold mount. apply processQueue_settings.
    + apply setup_inv; [apply initial_inv|]. by intros i r.
    + apply setup_settings. split; cbn; auto.
      intros t Ht. by apply elem_of_nil in Ht.
  - apply step_settings; [by apply reachable_inv|done|done].
Qed.

Lemma processQueue_waitTime s : waitTime (processQueue s) = waitTime s.
Proof.
  destruct (messageQueue s) as [|m rest] eqn:Hq.
  - by rewrite (processQueue_idle s Hq).
  - destruct (audio_truthy m && isAudioEnabledRef s) eqn:Hb.
    + by rewrite (processQueue_audio s m rest Hq Hb).
    + by rewrite (processQueue_timer s m rest Hq Hb).
Qed.

Lemma handleToggleWaitTime_waitTime s :
  waitTime (handleToggleWaitTime s)
  = (if Z.eqb (waitTime s) 1000 then 3000 else 1000)%Z.
Proof. unfold handleToggleWaitTime. by rewrite processQueue_waitTime. Qed.

(** X1. The wait interval is always one of the two presets, 1000 ms and
    3000 ms, the ref the pump reads always holds the current value, every
    pending timer was armed with a preset, and toggling the speed twice
    gives the interval back. *)
Theorem wait_interval_is_a_preset (s : State) :
  reachable s ->
  (waitTime s = 1000%Z \/ waitTime s = 3000%Z)
  /\ waitTimeRef s = waitTime s
  /\ (forall id d, (id, d) ∈ timers s -> d = 1000%Z \/ d = 3000%Z)
  /\ waitTime (step s ToggleWaitTime) <> waitTime s
  /\ waitTime (step (step s ToggleWaitTime) ToggleWaitTime) = waitTime s.
Proof.
  intros Hs. destruct (reachable_settings s Hs) as [Hw Hwr _ Hd _ _].
  split; [done|]. split; [done|]. split; [intros id d Ht; apply (Hd _ Ht)|].
  change (step (step s ToggleWaitTime) ToggleWaitTime)
    with (handleToggleWaitTime (handleToggleWaitTime s)).
  change (step s ToggleWaitTime) with (handleToggleWaitTime s).
  rewrite !handleToggleWaitTime_waitTime.
  destruct Hw as [-> | ->]; cbn; split; lia.
Qed.

Lemma wait_interval_is_a_preset_witness :
  waitTime (run (mount demo_props) demo_muted) = 3000%Z
  /\ waitTime (step (run (mount demo_props) demo_muted) ToggleWaitTime) = 1000%Z.
Proof.
  destruct (wait_interval_is_a_preset (run (mount demo_props) demo_muted))
    as (Hw & _ & _ & Hne & _).
  - apply run_reachable; [by apply reach_mount|vm_compute; reflexivity].
  - vm_compute in Hw, Hne. vm_compute. by split.
Defined.





(** X4. At most one timer is pending at any time, and it is the one whose
    handle [timeoutIdRef] holds. *)
Theorem one_pending_timer (s : State) :
  reachable s ->
  length (timers s) <= 1
  /\ (forall id d, (id, d) ∈ timers s -> timeoutIdRef s = Some id).
Proof.
  intros Hs. split.
  - apply (set_one_timer s (reachable_settings s Hs)).
  - intros id d Ht. apply (inv_timers s (reachable_inv s Hs) _ Ht).
Qed.

Lemma one_pending_timer_witness :
  timers (run (mount demo_props) demo_muted) = [(1%positive, 3000%Z)]
  /\ timeoutIdRef (run (mount demo_props) demo_muted) = Some 1%positive.
Proof.
  destruct (one_pending_timer (run (mount demo_props) demo_muted)) as [_ Hid].
  - apply run_reachable; [by apply reach_mount|vm_compute; reflexivity].
  - split; [vm_compute; reflexivity|].
    apply (Hid 1%positive 3000%Z). vm_compute. apply list_elem_of_here.
Defined.

(** X5. At most one event source is open or connecting at any time: the
    one [eventSourceRef] points to.  Every other source the component
    created is closed. *)
Theorem one_live_channel (s : State) :
  reachable s ->
  forall i j ri rj,
    eventSources s !! i = Some ri -> ri <> CLOSED ->
    eventSources s !! j = Some rj -> rj <> CLOSED ->
    i = j /\ eventSourceRef s = Some i.
Proof.
  intros Hs i j ri rj Hi Hri Hj Hrj.
  pose proof (reachable_inv s Hs) as [Hsrc _ _ _].
  pose proof (Hsrc i ri Hi Hri) as Ei. pose proof (Hsrc j rj Hj Hrj) as Ej.
  split; [congruence|done].
Qed.

Lemma one_live_channel_witness :
  let s := step (run (mount demo_props) demo_prefix) (Reselect demo_props) in
  eventSources s = [CLOSED; CONNECTING] /\ eventSourceRef s = Some 1.
Proof.
  intros s. split; [vm_compute; reflexivity|].
  apply (one_live_channel s
           ltac:(apply reach_step;
                 [apply run_reachable; [by apply reach_mount|vm_compute; reflexivity]
                 |vm_compute; reflexivity])
           1 1 CONNECTING CONNECTING); try (vm_compute; reflexivity); discriminate.
Defined.

(** ** The displayed list only grows *)

Lemma processQueue_messages s :
  messages (processQueue s) = (messages s ++ take 1 (messageQueue s))%list.
Proof.
  destruct (messageQueue s) as [|m rest] eqn:Hq.
  - rewrite (processQueue_idle s Hq). cbn. by rewrite app_nil_r.
  - destruct (audio_truthy m && isAudioEnabledRef s) eqn:Hb.
    + by rewrite (processQueue_audio s m rest Hq Hb).
    + by rewrite (processQueue_timer s m rest Hq Hb).
Qed.

Lemma step_messages s act :
  restarts act = false -> messages s `prefix_of` messages (step s act).
Proof.
  intros Hact. destruct (pump_input s act) as [s0|] eqn:Hin.
  { rewrite (step_pump s act s0 Hin), processQueue_messages.
    assert (messages s0 = messages s) as ->; [|by apply prefix_app_r].
    destruct act as [i|i [| |data]|i|id|a|a|a| | |p|]; cbn in *; try congruence.
    all: try (by injection Hin as <-).
    destruct (currentPlayingAudio s), (timeoutIdRef s); try congruence.
    by injection Hin as <-. }
  destruct act as [i|i [| |data]|i|id|a|a|a| | |p|]; cbn in *; try congruence.
  - done.
  - done.
  - by destruct (currentPlayingAudio s), (timeoutIdRef s).
  - done.
  - unfold handleToggleAudio. break_state s. cbn. by destruct cur, ae.
  - unfold setup. rewrite Hact. cbn. by destruct (cleanup_backlog s) as [-> _].
  - by destruct (cleanup_backlog s) as [-> _].
Qed.

(** X6. Within a session the displayed list is append-only: whatever
    happens, short of a new session starting, the messages displayed
    before are still displayed, in the same order, in front of the ones
    added since. *)
Theorem displayed_list_is_append_only (s : State) (acts : list Action) :
  forallb (fun act => negb (restarts act)) acts = true ->
  messages s `prefix_of` messages (run s acts).
Proof.
  revert s. induction acts as [|act rest IH]; intros s Hacts; [done|].
  cbn in Hacts. apply andb_prop in Hacts as [Hact Hrest].
  apply negb_true_iff in Hact.
  change (run s (act :: rest)) with (run (step s act) rest).
  etrans; [by apply step_messages|by apply IH].
Qed.

Lemma displayed_list_is_append_only_witness :
  messages (run (mount demo_props) demo_prefix)
    `prefix_of` messages (run (run (mount demo_props) demo_prefix)
                            [AudioEnded 0; FrameArrived 0 EndSignal]).
Proof.
  exact (displayed_list_is_append_only
           (run (mount demo_props) demo_prefix)
           [AudioEnded 0; FrameArrived 0 EndSignal] eq_refl).
Defined.

(** ** Draining the queue by timer *)

Lemma pump_keeps_channel s act s0 :
  enabled s act = true -> pump_input s act = Some s0 ->
  (forall i, act <> FrameArrived i EndSignal) ->
  eventSourceRef s0 = eventSourceRef s /\ eventSources s0 = eventSources s.
Proof.
  intros Hen Hin Hne.
  destruct act as [i|i [| |data]|i|id|a|a|a| | |p|]; cbn in *; try congruence.
  - by destruct (Hne i).
  - destruct (currentPlayingAudio s), (timeoutIdRef s); try congruence.
    by injection Hin as <-.
  - by injection Hin as <-.
  - by injection Hin as <-.
  - by injection Hin as <-.
  - by injection Hin as <-.
  - by injection Hin as <-.
Qed.

Lemma fire_timer_release s id d tl m rest :
  Inv s -> isAudioEnabledRef s = false ->
  timers s = (id, d) :: tl -> messageQueue s = m :: rest ->
  let s' := fire_timer s in
  messages s' = (messages s ++ [m])%list /\ messageQueue s' = rest
  /\ timers s' = [(nextTimer s, waitTimeRef s)]
  /\ isAudioEnabledRef s' = false
  /\ channel_closed_flag s' = channel_closed_flag s
  /\ enabled s (TimerFired id) = true.
Proof.
  intros HI Hoff Ht Hq s'. subst s'. unfold fire_timer. rewrite Ht.
  assert (Hen : enabled s (TimerFired id) = true).
  { cbn. unfold timer_pending. rewrite Ht. apply bool_decide_eq_true.
    cbn. apply list_elem_of_here. }
  pose proof (pump_input_inv s (TimerFired id) (timer_expires id s) HI Hen eq_refl) as HI0.
  change (step s (TimerFired id)) with (processQueue (timer_expires id s)).
  assert (Hq0 : messageQueue (timer_expires id s) = m :: rest) by done.
  assert (Hb : audio_truthy m && isAudioEnabledRef (timer_expires id s) = false).
  { cbn. by rewrite Hoff, andb_false_r. }
  rewrite (processQueue_timer _ m rest Hq0 Hb).
  rewrite (pending_after_clear_nil _ (inv_timers _ HI0)).
  by repeat split.
Qed.

Lemma fire_timer_idle s id d tl :
  Inv s -> timers s = (id, d) :: tl -> messageQueue s = [] ->
  let s' := fire_timer s in
  messages s' = messages s /\ messageQueue s' = []
  /\ timers s' = [] /\ timeoutIdRef s' = None
  /\ isInterviewComplete s' = channel_closed_flag s.
Proof.
  intros HI Ht Hq s'. subst s'. unfold fire_timer. rewrite Ht.
  assert (Hen : enabled s (TimerFired id) = true).
  { cbn. unfold timer_pending. rewrite Ht. apply bool_decide_eq_true.
    cbn. apply list_elem_of_here. }
  pose proof (pump_input_inv s (TimerFired id) (timer_expires id s) HI Hen eq_refl) as HI0.
  change (step s (TimerFired id)) with (processQueue (timer_expires id s)).
  assert (Hq0 : messageQueue (timer_expires id s) = []) by done.
  rewrite (processQueue_idle _ Hq0).
  rewrite (pending_after_clear_nil _ (inv_timers _ HI0)).
  by repeat split.
Qed.

(** X7. With audio switched off and a timer pending, a queue of [n]
    events is emptied by [n] expiries of the timer, one event displayed at
    each, in the order of the queue; one more expiry finds the queue empty,
    leaves no timer pending and sets the completion flag to whether the
    channel is closed.  The states passed through are reachable. *)
Theorem timers_drain_the_queue (s : State) :
  reachable s ->
  isAudioEnabledRef s = false ->
  timers s <> [] ->
  let s' := fire_timers (S (length (messageQueue s))) s in
  reachable s'
  /\ messages s' = (messages s ++ messageQueue s)%list
  /\ messageQueue s' = []
  /\ timers s' = [] /\ timeoutIdRef s' = None
  /\ isInterviewComplete s' = channel_closed_flag s.
Proof.
  remember (messageQueue s) as q eqn:Hq. revert s Hq.
  induction q as [|m rest IH]; intros s Hq Hs Hoff Ht.
  - cbn [length fire_timers].
    destruct (timers s) as [|[id d] tl] eqn:Etim; [done|].
    destruct (fire_timer_idle s id d tl (reachable_inv s Hs) Etim (eq_sym Hq))
      as (Hm & Hq' & Ht' & Hr & Hc).
    split; [|by rewrite app_nil_r].
    unfold fire_timer. rewrite Etim. apply reach_step; [done|].
    cbn. unfold timer_pending. rewrite Etim. apply bool_decide_eq_true.
    cbn. apply list_elem_of_here.
  - cbn [length]. change (fire_timers (S (S (length rest))) s)
      with (fire_timers (S (length rest)) (fire_timer s)).
    destruct (timers s) as [|[id d] tl] eqn:Etim; [done|].
    destruct (fire_timer_release s id d tl m rest (reachable_inv s Hs) Hoff Etim (eq_sym Hq))
      as (Hm & Hq' & Ht' & Hoff' & Hc & Hen).
    assert (Hs' : reachable (fire_timer s)).
    { unfold fire_timer. rewrite Etim. by apply reach_step. }
    destruct (IH (fire_timer s)) as (Hr & Hm2 & Hq2 & Ht2 & Hr2 & Hc2);
      [by rewrite Hq'|done|done|by rewrite Ht'|].
    rewrite Hm2, Hm, Hc2, Hc, <- app_assoc.
    by repeat split.
Qed.

Lemma timers_drain_the_queue_witness :
  let s := run (mount demo_props) demo_muted in
  messages (fire_timers 3 s) = [hello; answer; report1]
  /\ messageQueue (fire_timers 3 s) = [].
Proof.
  intros s.
  destruct (timers_drain_the_queue s) as (_ & Hm & Hq & _).
  - apply run_reachable; [by apply reach_mount|vm_compute; reflexivity].
  - vm_compute. reflexivity.
  - vm_compute. discriminate.
  - vm_compute in Hm, Hq. vm_compute. by split.
Defined.

(** ** Transport errors *)

(** X8. A transport error closes the channel without calling the pump;
    the first call of the pump after it that finds the queue empty sets
    the completion flag to [true], as after the end signal. *)
Theorem transport_error_completes (s : State) (i : nat) :
  reachable s ->
  eventSourceRef s = Some i ->
  i < length (eventSources s) ->
  let s1 := step s (SourceError i) in
  all_sources_closed s1
  /\ isInterviewComplete s1 = isInterviewComplete s
  /\ messages s1 = messages s /\ messageQueue s1 = messageQueue s
  /\ (forall act s0,
        enabled s1 act = true -> pump_input s1 act = Some s0 ->
        messageQueue s0 = [] ->
        isInterviewComplete (step s1 act) = JBool true).
Proof.
  intros Hs Href Hlt s1.
  assert (Hs1 : reachable s1) by (apply reach_step; [done|by apply bool_decide_eq_true]).
  pose proof (reachable_inv s1 Hs1) as HI1.
  assert (Hflag : channel_closed_flag s1 = JBool true).
  { unfold channel_closed_flag, s1. cbn. rewrite Href.
    f_equal. apply bool_decide_eq_true. rewrite list_lookup_alter_eq.
    destruct (lookup_lt_is_Some_2 _ _ Hlt) as [r ->]. done. }
  assert (Hall : all_sources_closed s1).
  { apply closed_flag_all_closed; [apply (inv_sources s1 HI1)|by rewrite Hflag]. }
  repeat split; try done.
  intros act s0 Hen Hin Hq.
  rewrite (step_pump s1 act s0 Hin), (processQueue_idle s0 Hq). cbn.
  destruct (pump_keeps_channel s1 act s0 Hen Hin) as [E1 E2].
  - intros j ->. cbn in Hen. apply bool_decide_eq_true in Hen.
    by apply Hall in Hen.
  - unfold channel_closed_flag in *. by rewrite E1, E2.
Qed.

Lemma transport_error_completes_witness :
  let s := run (mount demo_props) [SourceOpen 0; FrameArrived 0 (Payload hello)] in
  isInterviewComplete (run s [SourceError 0; TimerFired 1]) = JBool true.
Proof.
  intros s.
  destruct (transport_error_completes s 0) as (_ & _ & _ & _ & Hpump).
  - apply run_reachable; [by apply reach_mount|vm_compute; reflexivity].
  - vm_compute. reflexivity.
  - vm_compute. lia.
  - apply (Hpump (TimerFired 1) (timer_expires 1 (step s (SourceError 0))));
      vm_compute; reflexivity.
Defined.

(** * Further properties of the tokenizer *)

Lemma match_tag_app s tok rest :
  match_tag s = Some (tok, rest) -> s = tok ++ rest.
Proof.
  unfold match_tag. destruct s as [|c r]; [done|].
  destruct (Ascii.eqb c "<"); [|done].
  destruct (span not_gt r) as [a b] eqn:E.
  destruct a as [|x body]; [done|]. destruct b as [|d b]; [done|].
  destruct (Ascii.eqb d ">"); [|done]. intros [= <- <-].
  apply span_app in E as ->.
  rewrite !str_app_cons. do 2 f_equal. by rewrite str_app_assoc.
Qed.

Lemma match_tag_bare s tok rest :
  match_tag s = Some (tok, rest) -> is_bare_tag tok = true /\ tok <> "".
Proof.
  unfold match_tag at 1. destruct s as [|c r]; [done|].
  destruct (Ascii.eqb c "<") eqn:Hc; [|done]. apply Ascii.eqb_eq in Hc as ->.
  destruct (span not_gt r) as [a b] eqn:E.
  destruct a as [|x body]; [done|]. destruct b as [|d b]; [done|].
  destruct (Ascii.eqb d ">") eqn:Hd; [|done]. apply Ascii.eqb_eq in Hd as ->.
  intros [= <- <-]. split; [|done].
  apply span_all in E. simpl in E. apply andb_prop in E as [Hx Hbody].
  unfold is_bare_tag.
  rewrite <- (str_app_nil_r (String "<" (String x body ++ ">"))) at 1.
  by rewrite (match_tag_tag x body "" Hx Hbody).
Qed.

Lemma match_text_app s tok rest :
  match_text s = Some (tok, rest) ->
  s = tok ++ rest /\ all_chars not_lt tok = true /\ tok <> "".
Proof.
  unfold match_text. destruct (span not_lt s) as [a b] eqn:E.
  destruct a as [|x t]; [done|]. intros [= <- <-].
  split; [by apply span_app in E|]. split; [by apply span_all in E|done].
Qed.

Lemma match_text_none c r : match_text (String c r) = None -> c = "<"%char.
Proof.
  unfold match_text. simpl. unfold not_lt at 1.
  destruct (Ascii.eqb c "<") eqn:Hc; [by apply Ascii.eqb_eq in Hc|].
  cbn. by destruct (span not_lt r).
Qed.

Lemma matches_tokens n : forall s tok,
  tok ∈ matches n s ->
  tok <> "" /\ (is_bare_tag tok = true \/ all_chars not_lt tok = true).
Proof.
  induction n as [|n IH]; intros s tok Hin; [by apply elem_of_nil in Hin|].
  destruct s as [|c r]; [by apply elem_of_nil in Hin|]. cbn [matches] in Hin.
  destruct (match_tag (String c r)) as [[t rest]|] eqn:Etag.
  - apply elem_of_cons in Hin as [->|Hin]; [|by apply (IH rest)].
    destruct (match_tag_bare _ _ _ Etag). auto.
  - destruct (match_text (String c r)) as [[t rest]|] eqn:Etext.
    + apply elem_of_cons in Hin as [->|Hin]; [|by apply (IH rest)].
      destruct (match_text_app _ _ _ Etext) as (_ & Hall & Hne). auto.
    + by apply (IH r).
Qed.

Lemma drops_lt_refl s : drops_lt s s.
Proof. induction s; constructor; auto. Qed.

Lemma drops_lt_app a s t : drops_lt s t -> drops_lt (a ++ s) (a ++ t).
Proof.
  intros H. induction a as [|c a IH]; [done|].
  rewrite !str_app_cons. by constructor.
Qed.

Lemma matches_drops n : forall s,
  String.length s <= n -> drops_lt s (join (matches n s)).
Proof.
  induction n as [|n IH]; intros s Hlen.
  - destruct s; simpl in *; [constructor|lia].
  - destruct s as [|c r]; [constructor|]. cbn [matches].
    destruct (match_tag (String c r)) as [[t rest]|] eqn:Etag.
    + pose proof (match_tag_shorter _ _ _ Etag) as Hlt.
      rewrite (match_tag_app _ _ _ Etag), join_cons.
      apply drops_lt_app, IH. lia.
    + destruct (match_text (String c r)) as [[t rest]|] eqn:Etext.
      * pose proof (match_text_shorter _ _ _ Etext) as Hlt.
        destruct (match_text_app _ _ _ Etext) as (E & _ & _).
        rewrite E, join_cons. apply drops_lt_app, IH. lia.
      * rewrite (match_text_none c r Etext). constructor.
        apply IH. simpl in Hlen. lia.
Qed.

(** X9. The tokenizer yields no empty token; every token is either one
    whole tag or a run of text without [<]; and joining the tokens gives
    the input back except for some [<] left out: it never invents,
    reorders or loses any other code unit. *)
Theorem tokens_are_tags_or_text (html : string) :
  (forall tok, tok ∈ tokenizeHTML html ->
     tok <> "" /\ (is_bare_tag tok = true \/ all_chars not_lt tok = true))
  /\ drops_lt html (join (tokenizeHTML html))
  /\ String.length (join (tokenizeHTML html)) <= String.length html.
Proof.
  split; [apply matches_tokens|].
  assert (H : drops_lt html (join (tokenizeHTML html))) by (by apply matches_drops).
  split; [done|]. induction H; simpl; lia.
Qed.

(** * Further properties of the report tracker *)

Section TrackerProperties.
Variable marked : string -> string.

Lemma reportEffect_current msgs r latest :
  last (reportMessages msgs) = Some latest ->
  currentReport (reportEffect marked msgs r) = renderReport marked (text latest).
Proof.
  intros Hl. unfold reportEffect, renderReport. rewrite Hl. cbn.
  destruct (String.eqb _ _) eqn:E; [|done]. by apply String.eqb_eq in E.
Qed.

(** X10. The report effect settles in one run: run again on the same
    messages, as React does once [currentReport] has changed, it changes
    nothing; and after it has run, the current revision is the rendering
    of the latest report event. *)
Theorem report_effect_settles (msgs : list ConversationEvent) (r : ReportRevision) :
  reportEffect marked msgs (reportEffect marked msgs r) = reportEffect marked msgs r
  /\ (forall latest, last (reportMessages msgs) = Some latest ->
        currentReport (reportEffect marked msgs r)
        = renderReport marked (text latest)).
Proof.
  split; [|intros latest; apply reportEffect_current].
  destruct (last (reportMessages msgs)) as [latest|] eqn:Hl.
  - pose proof (reportEffect_current msgs r latest Hl) as Hcur.
    unfold reportEffect at 1. rewrite Hl. cbn.
    unfold renderReport in Hcur. by rewrite Hcur, String.eqb_refl.
  - unfold reportEffect. by rewrite Hl.
Qed.

(** X11. An event of any speaker other than [report] leaves the pair of
    revisions as it is: once the effect has run on the messages before
    it, running it with the new event appended changes nothing. *)
Theorem chat_events_leave_the_report (msgs : list ConversationEvent)
    (e : ConversationEvent) (r : ReportRevision) :
  speaker e <> "report" ->
  reportMessages (msgs ++ [e]) = reportMessages msgs
  /\ reportEffect marked (msgs ++ [e]) (reportEffect marked msgs r)
     = reportEffect marked msgs r.
Proof.
  intros Hne.
  assert (E : reportMessages (msgs ++ [e]) = reportMessages msgs).
  { unfold reportMessages. rewrite filter_app, filter_cons.
    destruct (decide (speaker e = "report")); [done|].
    by rewrite filter_nil, app_nil_r. }
  split; [done|].
  destruct (report_effect_settles msgs r) as [Hs _].
  unfold reportEffect at 1. rewrite E.
  unfold reportEffect at 1 in Hs. exact Hs.
Qed.

Lemma reportEffect_distinct msgs r :
  (prevReport r = currentReport r -> r = mkRevision "" "") ->
  prevReport (reportEffect marked msgs r) = currentReport (reportEffect marked msgs r) ->
  reportEffect marked msgs r = mkRevision "" "".
Proof.
  intros Hr. unfold reportEffect.
  destruct (last (reportMessages msgs)) as [latest|]; [|done]. cbn.
  destruct (String.eqb _ _) eqn:E; [done|]. cbn.
  intros Heq. apply String.eqb_neq in E. congruence.
Qed.

(** X12. Starting from the two empty revisions, and whatever lists of
    messages the effect has run on, the previous and the current revision
    are never equal unless both are still empty: when the pane shows a
    diff, it is a diff of two different revisions. *)
Theorem revisions_differ (history : list (list ConversationEvent)) :
  let r := trackReports marked history (mkRevision "" "") in
  prevReport r = currentReport r -> r = mkRevision "" "".
Proof.
  cbn zeta. unfold trackReports.
  assert (H : forall r0, (prevReport r0 = currentReport r0 -> r0 = mkRevision "" "") ->
            let r := fold_left (fun r msgs => reportEffect marked msgs r) history r0 in
            prevReport r = currentReport r -> r = mkRevision "" "").
  { induction history as [|msgs rest IH]; intros r0 Hr0; [done|].
    cbn. apply IH. by apply reportEffect_distinct. }
  by apply H.
Qed.

(** X13. The report posted for evaluation is the current revision of the
    tracker once its effect has run on the same messages; with no report
    event it is the fixed placeholder, and the tracker is untouched. *)
Theorem evaluated_report_is_current (msgs : list ConversationEvent)
    (r : ReportRevision) :
  (reportMessages msgs <> [] ->
     evaluationReport marked msgs = currentReport (reportEffect marked msgs r))
  /\ (reportMessages msgs = [] ->
        evaluationReport marked msgs = "<p>No report available.</p>"
        /\ reportEffect marked msgs r = r).
Proof.
  unfold evaluationReport. split.
  - intros Hne. destruct (last (reportMessages msgs)) as [latest|] eqn:Hl.
    + by rewrite (reportEffect_current msgs r latest Hl).
    + apply last_None in Hl. done.
  - intros Hnil. unfold reportEffect. by rewrite Hnil.
Qed.
End TrackerProperties.

Lemma chat_events_leave_the_report_witness :
  reportMessages ([hello; report1] ++ [answer]) = [report1].
Proof.
  apply (chat_events_leave_the_report demo_marked [hello; report1] answer
           (mkRevision "" "")).
  vm_compute. discriminate.
Defined.

Lemma revisions_differ_witness :
  trackReports demo_marked [[hello]; [hello; answer]] (mkRevision "" "")
  = mkRevision "" "".
Proof.
  apply (revisions_differ demo_marked [[hello]; [hello; answer]]).
  vm_compute. reflexivity.
Defined.

Lemma evaluated_report_is_current_witness :
  evaluationReport demo_marked [hello; report1] = demo_marked "# R1"
  /\ evaluationReport demo_marked [hello] = "<p>No report available.</p>".
Proof.
  destruct (evaluated_report_is_current demo_marked [hello; report1] (mkRevision "" ""))
    as [Hsome _].
  destruct (evaluated_report_is_current demo_marked [hello] (mkRevision "" ""))
    as [_ Hnone].
  split.
  - rewrite Hsome; [vm_compute; reflexivity|vm_compute; discriminate].
  - apply Hnone. vm_compute. reflexivity.
Defined.

(** * The evaluation text *)

Lemma strip_prefix_app pat rest : strip_prefix pat (pat ++ rest) = Some rest.
Proof.
  induction pat as [|a pat IH]; [by destruct rest|].
  rewrite str_app_cons. simpl. by rewrite Ascii.eqb_refl.
Qed.

Lemma replace_first_here pat rep rest :
  replace_first pat rep (pat ++ rest) = rep ++ rest.
Proof.
  destruct (pat ++ rest) eqn:E; simpl; rewrite <- E, strip_prefix_app; done.
Qed.

Lemma strip_prefix_absent pat s :
  all_chars not_backtick s = true -> all_chars not_backtick pat = false ->
  strip_prefix pat s = None.
Proof.
  revert s. induction pat as [|a pat IH]; intros s Hs Hpat; [done|].
  destruct s as [|b s]; [done|]. simpl in *.
  apply andb_prop in Hs as [Hb Hs].
  destruct (Ascii.eqb a b) eqn:E; [|done].
  apply Ascii.eqb_eq in E as ->. rewrite Hb in Hpat. by apply IH.
Qed.

Lemma replace_first_absent pat rep s :
  all_chars not_backtick s = true -> all_chars not_backtick pat = false ->
  replace_first pat rep s = s.
Proof.
  intros Hs Hpat. induction s as [|c s IH].
  - simpl. by rewrite (strip_prefix_absent pat "" eq_refl Hpat).
  - simpl. rewrite (strip_prefix_absent pat (String c s) Hs Hpat).
    simpl in Hs. apply andb_prop in Hs as [_ Hs]. by rewrite IH.
Qed.

Lemma fence_close_not_inside c r :
  all_chars not_backtick (String c r) = true ->
  strip_prefix fence_close (String c r ++ fence_close) = None.
Proof.
  intros Hs. simpl in Hs. apply andb_prop in Hs as [Hc Hr].
  change fence_close with (String (ascii_of_nat 10) "```").
  rewrite str_app_cons.
  change (strip_prefix (String (ascii_of_nat 10) "```")
            (String c (r ++ String (ascii_of_nat 10) "```")))
    with (if Ascii.eqb (ascii_of_nat 10) c
          then strip_prefix "```" (r ++ String (ascii_of_nat 10) "```")
          else None).
  destruct (Ascii.eqb (ascii_of_nat 10) c); [|done].
  destruct r as [|d r]; [done|].
  rewrite str_app_cons. simpl in Hr. apply andb_prop in Hr as [Hd _].
  unfold not_backtick, is_backtick in Hd. apply negb_true_iff in Hd.
  rewrite Ascii.eqb_sym in Hd.
  change (strip_prefix "```" (String d (r ++ String (ascii_of_nat 10) "```")))
    with (if Ascii.eqb "`" d
          then strip_prefix "``" (r ++ String (ascii_of_nat 10) "```")
          else None).
  by rewrite Hd.
Qed.

Lemma replace_first_cons pat rep c s :
  replace_first pat rep (String c s)
  = match strip_prefix pat (String c s) with
    | Some rest => rep ++ rest
    | None => String c (replace_first pat rep s)
    end.
Proof. reflexivity. Qed.

Lemma replace_fence_close body :
  all_chars not_backtick body = true ->
  replace_first fence_close "" (body ++ fence_close) = body.
Proof.
  intros Hb. induction body as [|c r IH].
  - rewrite str_app_nil_l.
    by rewrite <- (str_app_nil_r fence_close) at 2; rewrite replace_first_here.
  - pose proof (fence_close_not_inside c r Hb) as Hnone.
    rewrite str_app_cons in *. rewrite replace_first_cons, Hnone.
    simpl in Hb. apply andb_prop in Hb as [_ Hr]. by rewrite IH.
Qed.

(** X14. An evaluation wrapped in a [```html] fence comes out of the
    stripping as the text between the fences, and an evaluation without a
    fence comes out as it is, for every text that holds no backtick. *)
Theorem fence_is_stripped (body : string) :
  all_chars not_backtick body = true ->
  stripFence (fence_open ++ body ++ fence_close) = body
  /\ stripFence body = body.
Proof.
  intros Hb. unfold stripFence. split.
  - rewrite replace_first_here, str_app_nil_l. by apply replace_fence_close.
  - rewrite (replace_first_absent fence_open "" body Hb eq_refl).
    by apply replace_first_absent.
Qed.

Lemma fence_is_stripped_witness :
  stripFence (fence_open ++ "<p>Good report.</p>" ++ fence_close)
  = "<p>Good report.</p>".
Proof.
  apply (fence_is_stripped "<p>Good report.</p>"). reflexivity.
Defined.

(** * Page navigation and patient selection *)

Lemma conditionEffect_page st :
  App.currentPage (App.conditionEffect st) = App.currentPage st
  /\ App.selectedPatient (App.conditionEffect st) = App.selectedPatient st.
Proof.
  unfold App.conditionEffect. repeat case_match; done.
Qed.

Lemma conditionEffect_serotonin st p :
  App.selectedPatient (App.conditionEffect st) = Some p ->
  App.selectedCondition (App.conditionEffect st) = Some "Serotonin Syndrome" ->
  App.existing_condition p = "depression".
Proof.
  unfold App.conditionEffect.
  destruct (App.selectedPatient st) as [q|] eqn:Ep; [|by rewrite Ep].
  destruct (App.selectedCondition st) as [c|] eqn:Ec; [|by rewrite Ec].
  destruct (String.eqb (App.existing_condition q) "depression") eqn:Ed; cbn.
  - rewrite Ep. intros [= <-] _. by apply String.eqb_eq in Ed.
  - destruct (String.eqb c "Serotonin Syndrome") eqn:Es; cbn; [done|].
    rewrite Ep, Ec. intros _ [= ->]. done.
Qed.

Lemma step_page_ready st act :
  App.currentPage (App.step st act) = App.rolePlayDialogs
  \/ App.currentPage (App.step st act) = App.interview ->
  (App.currentPage st = App.rolePlayDialogs \/ App.currentPage st = App.interview)
  /\ App.selectedPatient (App.step st act) = App.selectedPatient st
  /\ App.selectedCondition (App.step st act) = App.selectedCondition st
  \/ props_truthy (App.interviewProps (App.step st act)) = true.
Proof.
  destruct st as [page pat cond]. unfold App.step. cbn [App.currentPage].
  destruct page, act; try (intros [H|H]; by auto);
    unfold App.enterPatientBuilder;
    rewrite ?(proj1 (conditionEffect_page _)); cbn [App.currentPage];
    try (intros [H|H]; by auto).
  - destruct (decide _); rewrite ?(proj1 (conditionEffect_page _));
      intros [H|H]; done.
  - cbn [App.selectedPatient App.selectedCondition].
    destruct (App.isDisabled cond0 _); intros [H|H]; done.
  - unfold App.handleGo. cbn [App.selectedPatient App.selectedCondition].
    destruct pat as [q|]; [|intros [H|H]; done].
    destruct (App.condition_truthy cond) eqn:Ec; [|intros [H|H]; done].
    intros _. right. unfold App.interviewProps, props_truthy. cbn.
    destruct cond; done.
Qed.

(** X15. The role-play page and the interview page are only ever shown
    with a patient and a non-empty condition selected: the props the
    interview is mounted with pass the guard of its stream effect. *)
Theorem interview_needs_a_selection (st : App.State) :
  App.reachable st ->
  App.currentPage st = App.rolePlayDialogs \/ App.currentPage st = App.interview ->
  props_truthy (App.interviewProps st) = true.
Proof.
  induction 1 as [|st act Hr IH]; [by intros [H|H]|].
  intros Hpage. destruct (step_page_ready st act Hpage) as [(Hp & E1 & E2)|]; [|done].
  unfold App.interviewProps in *. rewrite E1, E2. by apply IH.
Qed.

Lemma interview_needs_a_selection_witness :
  props_truthy
    (App.interviewProps
       (App.run App.initial
          [App.SwitchPage; App.ClickPatient jordan; App.ClickCondition serotonin;
           App.Go; App.Start])) = true
  /\ App.currentPage (App.run App.initial [App.SwitchPage; App.Go; App.Start])
     = App.patientBuilder.
Proof.
  split; [|reflexivity].
  apply interview_needs_a_selection.
  - repeat apply App.reach_step. apply App.reach_initial.
  - right. reflexivity.
Defined.

Lemma step_serotonin st act p :
  App.selectedPatient (App.step st act) = Some p ->
  App.selectedCondition (App.step st act) = Some "Serotonin Syndrome" ->
  (App.selectedPatient st = Some p
   /\ App.selectedCondition st = Some "Serotonin Syndrome")
  \/ App.existing_condition p = "Depression"
  \/ App.existing_condition p = "depression".
Proof.
  destruct st as [page pat cond]. unfold App.step. cbn [App.currentPage].
  destruct page, act; try (by auto);
    unfold App.enterPatientBuilder;
    try (intros Hp Hc; right; right; by apply (conditionEffect_serotonin _ p Hp Hc)).
  - destruct (decide _); [by auto|].
    intros Hp Hc; right; right; by apply (conditionEffect_serotonin _ p Hp Hc).
  - unfold App.isDisabled. cbn [App.selectedPatient App.selectedCondition].
    destruct (String.eqb (App.cond_name cond0) "Serotonin Syndrome") eqn:Es;
      cbn [andb].
    + destruct pat as [q|]; [|done].
      destruct (String.eqb (App.existing_condition q) "Depression") eqn:Ed;
        cbn [negb App.selectedPatient App.selectedCondition].
      * intros [= <-] _. right. left. by apply String.eqb_eq.
      * by auto.
    + cbn [App.selectedPatient App.selectedCondition].
      intros _ [= Hc]. apply String.eqb_neq in Es. done.
  - unfold App.handleGo. cbn [App.selectedPatient App.selectedCondition].
    destruct pat; [|by auto]. destruct (App.condition_truthy cond); by auto.
Qed.

(** X16. Whatever the user clicks, and in whatever order, the condition
    [Serotonin Syndrome] is never selected together with a patient whose
    existing condition is anything but depression, written [Depression]
    or [depression]. *)
Theorem serotonin_needs_depression (st : App.State) (p : App.Patient) :
  App.reachable st ->
  App.selectedPatient st = Some p ->
  App.selectedCondition st = Some "Serotonin Syndrome" ->
  App.existing_condition p = "Depression" \/ App.existing_condition p = "depression".
Proof.
  induction 1 as [|st act Hr IH]; [done|].
  intros Hp Hc. destruct (step_serotonin st act p Hp Hc) as [[Hp' Hc']|H]; auto.
Qed.

Lemma serotonin_needs_depression_witness :
  App.existing_condition jordan = "Depression"
  \/ App.existing_condition jordan = "depression".
Proof.
  apply (serotonin_needs_depression
           (App.run App.initial
              [App.SwitchPage; App.ClickPatient jordan; App.ClickCondition serotonin])
           jordan).
  - repeat apply App.reach_step. apply App.reach_initial.
  - reflexivity.
  - reflexivity.
Defined.

(** X17. Selecting another patient while [Serotonin Syndrome] is selected
    withdraws the condition unless the patient's existing condition is
    spelled [depression]; for a patient recorded with [Depression] the
    condition is withdrawn although its card stays enabled, and clicking
    the card selects it again. *)
Theorem selecting_a_patient_withdraws_serotonin (st : App.State)
    (p : App.Patient) (cond : App.Condition) :
  App.currentPage st = App.patientBuilder ->
  App.selectedPatient st <> Some p ->
  App.selectedCondition st = Some "Serotonin Syndrome" ->
  App.existing_condition p <> "depression" ->
  let st' := App.step st (App.ClickPatient p) in
  App.selectedPatient st' = Some p
  /\ App.selectedCondition st' = None
  /\ (App.existing_condition p = "Depression" ->
      App.cond_name cond = "Serotonin Syndrome" ->
      App.isDisabled cond st' = false
      /\ App.selectedCondition (App.step st' (App.ClickCondition cond))
         = Some "Serotonin Syndrome").
Proof.
  intros Hpage Hne Hc Hex. destruct st as [page pat c]. cbn in *. subst page c.
  unfold App.conditionEffect. cbn.
  apply String.eqb_neq in Hex. rewrite Hex. cbn.
  destruct (decide (pat = Some p)); [done|].
  split; [done|]. split; [done|]. intros Hdep Hname.
  assert (Hen : App.isDisabled cond
            (App.mkState App.patientBuilder (Some p) None) = false).
  { unfold App.isDisabled. cbn. by rewrite Hdep, Hname. }
  rewrite Hen. cbn. rewrite Hen. cbn. rewrite ?Hname. split; reflexivity.
Qed.

Lemma selecting_a_patient_withdraws_serotonin_witness :
  App.selectedCondition
    (App.run App.initial
       [App.SwitchPage; App.ClickCondition serotonin; App.ClickPatient jordan])
  = None.
Proof.
  apply (selecting_a_patient_withdraws_serotonin
           (App.run App.initial [App.SwitchPage; App.ClickCondition serotonin])
           jordan serotonin); try reflexivity; discriminate.
Defined.

(** * Runs wrapped whole *)

Section WholeRuns.
Variable diffWords : string -> string -> list (Change string).

Lemma diffLoop_cons_whole part rest :
  match rest with
  | next :: _ => prose_pair part next = false
  | [] => True
  end ->
  diffLoop diffWords (part :: rest) = wrapPart part ++ diffLoop diffWords rest.
Proof.
  destruct rest as [|next rest]; intros H.
  - cbn [diffLoop]. by rewrite str_app_nil_r.
  - cbn [diffLoop]. unfold prose_pair in H. by rewrite H.
Qed.

(** X18. Where no removed run is directly followed by an added run with
    prose on both sides, the loop wraps every run whole: added runs in
    one [add] span, removed runs in one [remove] span, unchanged runs as
    they are, without consulting the word diff.  This is so in particular
    when the differ reports no removed run at all. *)
Theorem runs_are_wrapped_whole (parts : list (Change (list string))) :
  no_prose_pair parts = true ->
  diffLoop diffWords parts = join (map wrapPart parts).
Proof.
  induction parts as [|part rest IH]; [done|].
  intros H. cbn [no_prose_pair] in H.
  rewrite diffLoop_cons_whole.
  - cbn [map]. rewrite join_cons. f_equal. apply IH.
    destruct rest; [done|]. by apply andb_prop in H as [_ H].
  - destruct rest; [done|]. apply andb_prop in H as [H _].
    by apply negb_true_iff in H.
Qed.

Lemma additions_have_no_prose_pair (parts : list (Change (list string))) :
  Forall (fun part => removed part = false) parts ->
  no_prose_pair parts = true.
Proof.
  induction 1 as [|part rest Hr _ IH]; [done|].
  cbn [no_prose_pair]. destruct rest; [done|].
  unfold prose_pair. by rewrite Hr, IH.
Qed.
End WholeRuns.

Lemma runs_are_wrapped_whole_witness :
  diffLoop ref_diffWords
    (ref_diffArrays ["<p>"; "A"; "</p>"] ["<p>"; "A"; "</p>"; "<b>"; "new"; "</b>"])
  = "<p>A</p>" ++ span_add "<b>new</b>".
Proof.
  rewrite (runs_are_wrapped_whole ref_diffWords); vm_compute; reflexivity.
Defined.

(** * The ingestor *)

Lemma processQueue_queue s :
  messageQueue (processQueue s) = drop 1 (messageQueue s).
Proof.
  destruct (messageQueue s) as [|m rest] eqn:Hq.
  - by rewrite (processQueue_idle s Hq).
  - destruct (audio_truthy m && isAudioEnabledRef s) eqn:Hb.
    + by rewrite (processQueue_audio s m rest Hq Hb).
    + by rewrite (processQueue_timer s m rest Hq Hb).
Qed.

(** X19. A conversation event that arrives while an event is being paced
    (an audio element is tracked or the timer ref is set) only joins the
    back of the queue, and nothing else changes; one that arrives
    otherwise joins the queue and the head of the queue is displayed at
    once. *)
Theorem frame_waits_while_paced (s : State) (i : nat) (e : ConversationEvent) :
  let s' := step s (FrameArrived i (Payload e)) in
  (currentPlayingAudio s <> None \/ timeoutIdRef s <> None ->
     s' = set_messageQueue (messageQueue s ++ [e]) s)
  /\ (currentPlayingAudio s = None -> timeoutIdRef s = None ->
        messages s' = (messages s ++ take 1 (messageQueue s ++ [e]))%list
        /\ messageQueue s' = drop 1 (messageQueue s ++ [e])).
Proof.
  cbn. split.
  - intros [H|H]; destruct (currentPlayingAudio s), (timeoutIdRef s); done.
  - intros -> ->. by rewrite processQueue_messages, processQueue_queue.
Qed.

Lemma frame_waits_while_paced_witness :
  let s := run (mount demo_props) [SourceOpen 0; FrameArrived 0 (Payload hello)] in
  messages (step s (FrameArrived 0 (Payload answer))) = [hello]
  /\ messageQueue (step s (FrameArrived 0 (Payload answer))) = [answer].
Proof.
  intros s.
  destruct (frame_waits_while_paced s 0 answer) as [Hwait _].
  rewrite Hwait; [vm_compute; by split|].
  right. vm_compute. discriminate.
Defined.

Lemma tokens_are_tags_or_text_witness :
  is_bare_tag "<p>" = true \/ all_chars not_lt "<p>" = true.
Proof.
  apply (proj1 (tokens_are_tags_or_text "<p>A</p>") "<p>").
  vm_compute. apply list_elem_of_here.
Defined.

Lemma report_effect_settles_witness :
  currentReport (reportEffect demo_marked [hello; report1] (mkRevision "" ""))
  = renderReport demo_marked "# R1".
Proof.
  apply (proj2 (report_effect_settles demo_marked [hello; report1]
                  (mkRevision "" "")) report1).
  vm_compute. reflexivity.
Defined.
